(** * The lambda-calculus syntax tree of [sandbox/lang/lambda/syntax.hpp]

    A shallow embedding of the node model, the four arity shapes, the
    language interface and implementation classes, the dynamic type query
    and the visitor, over an explicit store of heap-allocated objects. *)

From stdpp Require Import gmap strings list fin_maps.

Set Default Proof Using "Type".

(** ** Pointers

    Objects live in a store indexed by addresses; a C++ pointer is either
    [nullptr] or the address of an object. *)

Abbreviation addr := positive (only parsing).

Inductive ptr : Type :=
| nullptr
| Ptr (a : addr).

#[global] Instance ptr_eq_dec : EqDecision ptr.
Proof. solve_decision. Defined.

(** A [Node* const*]: the address of slot [idx] of the [nodes] member of
    the object stored at [base].  [slot_add] is pointer arithmetic. *)
Record slot : Type := Slot { base : addr; idx : nat }.

#[global] Instance slot_eq_dec : EqDecision slot.
Proof. solve_decision. Defined.

Definition slot_add (s : slot) (n : nat) : slot :=
  Slot (base s) (idx s + n).

(** ** External services *)

(** Modelled from the spec: [Location] (location.hpp is not part of the
    sources) is an opaque source-position tag whose default value is
    "unknown". *)
Inductive Location : Type :=
| unknown_location
| source_position (line column : nat).

Definition Location_default : Location := unknown_location.

(** Modelled from the spec: [Symbol] (symbol.hpp is not part of the
    sources) is a handle with a stable spelling; only the [spelling]
    member is read by the syntax tree. *)
Record Symbol : Type := mkSymbol { spelling : string }.

(** ** Node::Kind *)

Inductive Kind : Type :=
| Program_node
| Variable_node
| Abstraction_node
| Application_node
| Definition_node
| Evaluation_node.

#[global] Instance Kind_eq_dec : EqDecision Kind.
Proof. solve_decision. Defined.

(** The data members of [struct Node]. *)
Record Node : Type := mkNode { kind : Kind; loc : Location }.

(** ** The class hierarchy

    Every class of the header, template instantiations included.  The
    suffix [_cls] keeps the interface names apart from the vernacular. *)
Inductive Class : Type :=
| Node_cls
| Term_cls
| Variable_cls
| Application_cls
| Abstraction_cls
| Statement_cls
| Definition_cls
| Evaluation_cls
| Program_cls
| Nullary_node_Variable
| Binary_node_Abstraction
| Binary_node_Application
| Binary_node_Definition
| Unary_node_Evaluation
| Multi_node_Program_Statement
| Variable_impl
| Abstraction_impl
| Application_impl
| Definition_impl
| Evaluation_impl
| Program_impl.

#[global] Instance Class_eq_dec : EqDecision Class.
Proof. solve_decision. Defined.

(** The direct base class, as written after the colon of each [struct]. *)
Definition base_class (c : Class) : option Class :=
  match c with
  | Node_cls => None
  | Term_cls => Some Node_cls
  | Variable_cls => Some Term_cls
  | Application_cls => Some Term_cls
  | Abstraction_cls => Some Term_cls
  | Statement_cls => Some Node_cls
  | Definition_cls => Some Statement_cls
  | Evaluation_cls => Some Statement_cls
  | Program_cls => Some Node_cls
  | Nullary_node_Variable => Some Variable_cls
  | Binary_node_Abstraction => Some Abstraction_cls
  | Binary_node_Application => Some Application_cls
  | Binary_node_Definition => Some Definition_cls
  | Unary_node_Evaluation => Some Evaluation_cls
  | Multi_node_Program_Statement => Some Program_cls
  | Variable_impl => Some Nullary_node_Variable
  | Abstraction_impl => Some Binary_node_Abstraction
  | Application_impl => Some Binary_node_Application
  | Definition_impl => Some Binary_node_Definition
  | Evaluation_impl => Some Unary_node_Evaluation
  | Program_impl => Some Multi_node_Program_Statement
  end.

(** [derived_upto n c t]: [t] is reached from [c] in at most [n] steps of
    [base_class].  The hierarchy is four levels deep. *)
Fixpoint derived_upto (n : nat) (c t : Class) : bool :=
  if decide (c = t) then true
  else match n with
       | O => false
       | S n' => match base_class c with
                 | Some b => derived_upto n' b t
                 | None => false
                 end
       end.

Definition hierarchy_depth : nat := 4.

Definition derived_from (c t : Class) : bool :=
  derived_upto hierarchy_depth c t.

(** ** Objects *)

(** The [nodes] member contributed by the arity shape a class derives
    from: [Node* nodes[0]], [Node* nodes[1]], [Node* nodes[2]] or
    [std::vector<T*> nodes]; a vector is represented by its elements. *)
Inductive Storage : Type :=
| Nullary_node
| Unary_node (nodes0 : ptr)
| Binary_node (nodes0 nodes1 : ptr)
| Multi_node (nodes : list ptr).

(** The members an implementation class adds to its shape. *)
Inductive Members : Type :=
| no_members
| Variable_impl_members (sym : ptr).

(** A complete object: its dynamic type, the [Node] subobject, the shape's
    storage and the members of the most derived class. *)
Record Object : Type := mkObject {
  dyn : Class;
  node : Node;
  storage : Storage;
  members : Members
}.

(** The contents of the [nodes] array or vector. *)
Definition nodes_of (s : Storage) : list ptr :=
  match s with
  | Nullary_node => []
  | Unary_node n0 => [n0]
  | Binary_node n0 n1 => [n0; n1]
  | Multi_node v => v
  end.

Abbreviation heap := (gmap positive Object) (only parsing).
Abbreviation symtab := (gmap positive Symbol) (only parsing).

(** ** Constructors

    Each definition follows the member-initialiser list of the constructor
    it is named after.  The interface constructors build the [Node]
    subobject; the shape constructors pair it with their storage. *)

(** [Node(Kind k) : kind{k}, loc{}] *)
Definition Node_ctor (k : Kind) : Node := mkNode k Location_default.

Definition Term_ctor (kind : Kind) : Node := Node_ctor kind.
Definition Variable_ctor : Node := Term_ctor Variable_node.
Definition Application_ctor : Node := Term_ctor Application_node.
Definition Abstraction_ctor : Node := Term_ctor Abstraction_node.
Definition Statement_ctor (kind : Kind) : Node := Node_ctor kind.
Definition Definition_ctor : Node := Statement_ctor Definition_node.
Definition Evaluation_ctor : Node := Statement_ctor Evaluation_node.
Definition Program_ctor : Node := Node_ctor Program_node.

(** [Nullary_node() : Base()] *)
Definition Nullary_node_ctor (Base : Node) : Node * Storage :=
  (Base, Nullary_node).

(** [Unary_node(Node* child) : Base(), nodes{child}] *)
Definition Unary_node_ctor (Base : Node) (child : ptr) : Node * Storage :=
  (Base, Unary_node child).

(** [Binary_node(Node* left, Node* right) : Base(), nodes{left, right}] *)
Definition Binary_node_ctor (Base : Node) (left right : ptr)
  : Node * Storage :=
  (Base, Binary_node left right).

(** [Multi_node() : Base(), nodes{}] *)
Definition Multi_node_ctor (Base : Node) : Node * Storage :=
  (Base, Multi_node []).

(** [Multi_node(I first, I last) : Base(), nodes{first, last}]; the range
    and initialiser-list constructors delegate to it. *)
Definition Multi_node_ctor_range (Base : Node) (elems : list ptr)
  : Node * Storage :=
  (Base, Multi_node elems).

Definition complete (c : Class) (b : Node * Storage) (m : Members) : Object :=
  mkObject c (fst b) (snd b) m.

Definition Variable_impl_ctor (sym : ptr) : Object :=
  complete Variable_impl (Nullary_node_ctor Variable_ctor)
           (Variable_impl_members sym).

Definition Abstraction_impl_ctor (var term : ptr) : Object :=
  complete Abstraction_impl (Binary_node_ctor Abstraction_ctor var term)
           no_members.

Definition Application_impl_ctor (left right : ptr) : Object :=
  complete Application_impl (Binary_node_ctor Application_ctor left right)
           no_members.

Definition Definition_impl_ctor (var term : ptr) : Object :=
  complete Definition_impl (Binary_node_ctor Definition_ctor var term)
           no_members.

Definition Evaluation_impl_ctor (term : ptr) : Object :=
  complete Evaluation_impl (Unary_node_ctor Evaluation_ctor term) no_members.

Definition Program_impl_ctor : Object :=
  complete Program_impl (Multi_node_ctor Program_ctor) no_members.

(** ** Store-passing commands

    A command reads and updates the store and may have no result
    ([None]).  [None] stands for undefined behaviour, such as reading
    through a dangling pointer: the model gives no value there; it does
    not say what a particular build does. *)
Definition M (A : Type) : Type :=
  gmap positive Object → option (A * gmap positive Object).

Definition ret {A} (x : A) : M A := λ h, Some (x, h).

Definition bind {A B} (c : M A) (k : A → M B) : M B :=
  λ h, match c h with
       | Some (x, h') => k x h'
       | None => None
       end.

#[global] Instance M_ret : MRet M := @ret.
#[global] Instance M_bind : MBind M := λ A B k c, bind c k.

(** [new T(args)]: the constructed object is placed at an unused address. *)
Definition new_ (o : Object) : M addr :=
  λ h, let a := fresh (dom h) in Some (a, <[a := o]> h).

Definition new_Variable_impl (sym : ptr) : M addr :=
  new_ (Variable_impl_ctor sym).
Definition new_Abstraction_impl (var term : ptr) : M addr :=
  new_ (Abstraction_impl_ctor var term).
Definition new_Application_impl (left right : ptr) : M addr :=
  new_ (Application_impl_ctor left right).
Definition new_Definition_impl (var term : ptr) : M addr :=
  new_ (Definition_impl_ctor var term).
Definition new_Evaluation_impl (term : ptr) : M addr :=
  new_ (Evaluation_impl_ctor term).
Definition new_Program_impl : M addr :=
  new_ Program_impl_ctor.

(** ** Arity shapes: child access

    The [nodes] member of the object at [this] starts at slot 0. *)
Definition nodes_ptr (this : addr) : slot := Slot this 0.

(** [return nodes;] for both ends of a nullary node. *)
Definition Nullary_node_begin (this : addr) : slot := nodes_ptr this.
Definition Nullary_node_end (this : addr) : slot := nodes_ptr this.

(** [return nodes;] and [return nodes + 1;] *)
Definition Unary_node_begin (this : addr) : slot := nodes_ptr this.
Definition Unary_node_end (this : addr) : slot := slot_add (nodes_ptr this) 1.

(** [return nodes;] and [return nodes + 2;] *)
Definition Binary_node_begin (this : addr) : slot := nodes_ptr this.
Definition Binary_node_end (this : addr) : slot := slot_add (nodes_ptr this) 2.

(** [nodes.data()] and [nodes.data() + nodes.size()] *)
Definition Multi_node_begin (this : addr) (nodes : list ptr) : slot :=
  nodes_ptr this.
Definition Multi_node_end (this : addr) (nodes : list ptr) : slot :=
  slot_add (nodes_ptr this) (length nodes).

(** The virtual [Node::begin] and [Node::end]: the override that runs is
    the one of the shape the object was built with. *)
Definition Node_begin (h : heap) (this : addr) : option slot :=
  o ← h !! this;
  Some match storage o with
       | Nullary_node => Nullary_node_begin this
       | Unary_node _ => Unary_node_begin this
       | Binary_node _ _ => Binary_node_begin this
       | Multi_node v => Multi_node_begin this v
       end.

Definition Node_end (h : heap) (this : addr) : option slot :=
  o ← h !! this;
  Some match storage o with
       | Nullary_node => Nullary_node_end this
       | Unary_node _ => Unary_node_end this
       | Binary_node _ _ => Binary_node_end this
       | Multi_node v => Multi_node_end this v
       end.

(** [*it] for a slot pointer.  Reading outside the array is undefined
    behaviour, for which the model has no result; what lies behind the
    array in memory (for [Nullary_node<Variable>], the [sym] member) is
    not modelled. *)
Definition deref (h : heap) (it : slot) : option ptr :=
  o ← h !! base it;
  nodes_of (storage o) !! idx it.

(** [for (it = first; n-- != 0; ++it) *it]: the [n] slots from [it] on. *)
Fixpoint read_slots (h : heap) (n : nat) (it : slot) : option (list ptr) :=
  match n with
  | O => Some []
  | S n' =>
      x ← deref h it;
      xs ← read_slots h n' (slot_add it 1);
      Some (x :: xs)
  end.

(** The elements of the pointer range [[first, last)]. *)
Definition range_elements (h : heap) (first last : slot) : option (list ptr) :=
  if decide (base first = base last ∧ idx first ≤ idx last)
  then read_slots h (idx last - idx first) first
  else None.

(** The child range of a node: what iterating from [begin()] to [end()]
    yields. *)
Definition children (h : heap) (this : addr) : option (list ptr) :=
  b ← Node_begin h this;
  e ← Node_end h this;
  range_elements h b e.

(** [nodes[i]] inside a member function of [Unary_node<Base>]. *)
Definition Unary_node_nodes (h : heap) (this : addr) (i : nat) : option ptr :=
  o ← h !! this;
  match storage o with
  | Unary_node n0 => [n0] !! i
  | _ => None
  end.

(** [nodes[i]] inside a member function of [Binary_node<Base>]. *)
Definition Binary_node_nodes (h : heap) (this : addr) (i : nat) : option ptr :=
  o ← h !! this;
  match storage o with
  | Binary_node n0 n1 => [n0; n1] !! i
  | _ => None
  end.

(** [Unary_node::child], [Unary_node::first]: [return nodes[0];] *)
Definition Unary_node_child (h : heap) (this : addr) : option ptr :=
  Unary_node_nodes h this 0.
Definition Unary_node_first (h : heap) (this : addr) : option ptr :=
  Unary_node_nodes h this 0.

(** [Binary_node::left], [right], [first], [second] *)
Definition Binary_node_left (h : heap) (this : addr) : option ptr :=
  Binary_node_nodes h this 0.
Definition Binary_node_right (h : heap) (this : addr) : option ptr :=
  Binary_node_nodes h this 1.
Definition Binary_node_first (h : heap) (this : addr) : option ptr :=
  Binary_node_nodes h this 0.
Definition Binary_node_second (h : heap) (this : addr) : option ptr :=
  Binary_node_nodes h this 1.

(** [Multi_node::add_node]: [nodes.push_back(node);] *)
Definition Multi_node_add_node (this : addr) (n : ptr) : M unit :=
  λ h, o ← h !! this;
       match storage o with
       | Multi_node v =>
           Some (tt, <[this := mkObject (dyn o) (node o) (Multi_node (v ++ [n]))
                                        (members o)]> h)
       | _ => None
       end.

(** ** Dynamic type query *)

(** [dynamic_cast<T*>(p)]: null stays null; a pointer to a live object is
    kept when the object's class derives from [T] and becomes null
    otherwise.  For a dangling pointer the model has no result: the cast
    is undefined when it has to read the object, and the static type of
    the operand, which would make a cast to a base a plain conversion,
    is not modelled. *)
Definition dynamic_cast (T : Class) (h : heap) (p : ptr) : option ptr :=
  match p with
  | nullptr => Some nullptr
  | Ptr a =>
      o ← h !! a;
      Some (if derived_from (dyn o) T then Ptr a else nullptr)
  end.

(** [as<T>(node)]: [return dynamic_cast<T*>(node);] *)
Definition as_ (T : Class) (h : heap) (n : ptr) : option ptr :=
  dynamic_cast T h n.

(** [is<T>(node)]: [return as<T>(node) != nullptr;] *)
Definition is_ (T : Class) (h : heap) (n : ptr) : option bool :=
  p ← as_ T h n;
  Some (bool_decide (p ≠ nullptr)).

(** [static_cast<T*>(p)] between classes of this single-inheritance
    hierarchy leaves the pointer value as it is. *)
Definition static_cast (T : Class) (p : ptr) : ptr := p.

(** ** Node_range<T> *)
Module Node_range.
Record t : Type := mk { first : slot; last : slot }.

(** [reinterpret_cast<iterator>(first)] and [(last)]: the same addresses,
    read as [T* const*]. *)
Definition begin (r : t) : slot := first r.
Definition end_ (r : t) : slot := last r.

(** The sequence a client obtains by iterating the range. *)
Definition elements (h : heap) (r : t) : option (list ptr) :=
  range_elements h (begin r) (end_ r).
End Node_range.

(** ** Language implementation: member functions *)

(** [Variable_impl::symbol]: [return sym;] *)
Definition Variable_impl_symbol (h : heap) (this : addr) : option ptr :=
  o ← h !! this;
  match members o with
  | Variable_impl_members sym => Some sym
  | no_members => None
  end.

(** [Variable_impl::name]: [return sym->spelling;] *)
Definition Variable_impl_name (st : symtab) (h : heap) (this : addr)
  : option string :=
  sym ← Variable_impl_symbol h this;
  match sym with
  | Ptr s => spelling <$> st !! s
  | nullptr => None
  end.

(** [Abstraction_impl::var] and [term]: static casts of [nodes[0]] and
    [nodes[1]]. *)
Definition Abstraction_impl_var (h : heap) (this : addr) : option ptr :=
  static_cast Variable_cls <$> Binary_node_nodes h this 0.
Definition Abstraction_impl_term (h : heap) (this : addr) : option ptr :=
  static_cast Term_cls <$> Binary_node_nodes h this 1.

(** [Application_impl::func] and [arg] *)
Definition Application_impl_func (h : heap) (this : addr) : option ptr :=
  static_cast Term_cls <$> Binary_node_nodes h this 0.
Definition Application_impl_arg (h : heap) (this : addr) : option ptr :=
  static_cast Term_cls <$> Binary_node_nodes h this 1.

(** [Definition_impl::var]: [return as<Variable>(first());] and
    [Definition_impl::def]: [return as<Term>(second());] *)
Definition Definition_impl_var (h : heap) (this : addr) : option ptr :=
  n ← Binary_node_first h this; as_ Variable_cls h n.
Definition Definition_impl_def (h : heap) (this : addr) : option ptr :=
  n ← Binary_node_second h this; as_ Term_cls h n.

(** [Evaluation_impl::term]: [return as<Term>(first());] *)
Definition Evaluation_impl_term (h : heap) (this : addr) : option ptr :=
  n ← Unary_node_first h this; as_ Term_cls h n.

(** [Program_impl::add_statement]: [add_node(stmt);] *)
Definition Program_impl_add_statement (this : addr) (stmt : ptr) : M unit :=
  Multi_node_add_node this stmt.

(** [Program_impl::statements]: [return {begin(), end()};] *)
Definition Program_impl_statements (h : heap) (this : addr)
  : option Node_range.t :=
  b ← Node_begin h this;
  e ← Node_end h this;
  Some (Node_range.mk b e).

(** ** Language interface: virtual calls

    A call through an interface pointer runs the override of the object's
    dynamic class; the interfaces themselves declare the functions pure. *)
Definition virtual_call {A} (impl : Class) (body : option A) (h : heap)
    (this : addr) : option A :=
  o ← h !! this;
  if decide (dyn o = impl) then body else None.

Definition Variable_symbol (h : heap) (this : addr) : option ptr :=
  virtual_call Variable_impl (Variable_impl_symbol h this) h this.
Definition Variable_name (st : symtab) (h : heap) (this : addr)
  : option string :=
  virtual_call Variable_impl (Variable_impl_name st h this) h this.
Definition Abstraction_var (h : heap) (this : addr) : option ptr :=
  virtual_call Abstraction_impl (Abstraction_impl_var h this) h this.
Definition Abstraction_term (h : heap) (this : addr) : option ptr :=
  virtual_call Abstraction_impl (Abstraction_impl_term h this) h this.
Definition Application_func (h : heap) (this : addr) : option ptr :=
  virtual_call Application_impl (Application_impl_func h this) h this.
Definition Application_arg (h : heap) (this : addr) : option ptr :=
  virtual_call Application_impl (Application_impl_arg h this) h this.
Definition Definition_var (h : heap) (this : addr) : option ptr :=
  virtual_call Definition_impl (Definition_impl_var h this) h this.
Definition Definition_def (h : heap) (this : addr) : option ptr :=
  virtual_call Definition_impl (Definition_impl_def h this) h this.
Definition Evaluation_term (h : heap) (this : addr) : option ptr :=
  virtual_call Evaluation_impl (Evaluation_impl_term h this) h this.
Definition Program_statements (h : heap) (this : addr)
  : option Node_range.t :=
  virtual_call Program_impl (Program_impl_statements h this) h this.
Definition Program_add_statement (this : addr) (stmt : ptr) : M unit :=
  λ h, virtual_call Program_impl (Program_impl_add_statement this stmt h)
                    h this.

(** A pointer of static type [T*] in a well-typed program: null, or the
    address of a live object whose class derives from [T]. *)
Definition points_to (h : heap) (T : Class) (p : ptr) : bool :=
  match p with
  | nullptr => true
  | Ptr a => match h !! a with
             | Some o => derived_from (dyn o) T
             | None => false
             end
  end.

(** ** Visitor *)
Module Visitor.

(** The nine virtual member functions declared by [struct Visitor], as
    functions of the visited pointer and of the state [St] a concrete
    visitor carries; a faulting call yields [None]. *)
Record vtable (St : Type) : Type := mk_vtable {
  visit_node : ptr → St → option St;
  visit_program : ptr → St → option St;
  visit_statement : ptr → St → option St;
  visit_definition : ptr → St → option St;
  visit_evaluation : ptr → St → option St;
  visit_term : ptr → St → option St;
  visit_variable : ptr → St → option St;
  visit_abstraction : ptr → St → option St;
  visit_application : ptr → St → option St
}.
Arguments mk_vtable {St}.
Arguments visit_node {St}.
Arguments visit_program {St}.
Arguments visit_statement {St}.
Arguments visit_definition {St}.
Arguments visit_evaluation {St}.
Arguments visit_term {St}.
Arguments visit_variable {St}.
Arguments visit_abstraction {St}.
Arguments visit_application {St}.

(** A visitor class gives the bodies of the member functions in terms of
    the object they run on ([*this], with its virtual calls bound). *)
Definition vclass (St : Type) : Type := vtable St → vtable St.

Definition unbound {St} : vtable St :=
  let stuck := λ (_ : ptr) (_ : St), @None St in
  mk_vtable stuck stuck stuck stuck stuck stuck stuck stuck stuck.

(** Binding the virtual calls of a class to itself; [fuel] bounds the
    nesting depth of the calls. *)
Fixpoint bind_virtual {St} (fuel : nat) (C : vclass St) : vtable St :=
  match fuel with
  | O => unbound
  | S fuel' => C (bind_virtual fuel' C)
  end.

(** Calling [f] on each pointer of a sequence, first to last. *)
Fixpoint visit_each {St} (f : ptr → St → option St) (ns : list ptr)
    (s : St) : option St :=
  match ns with
  | [] => Some s
  | n :: ns' => s' ← f n s; visit_each f ns' s'
  end.

Section base.
Context {St : Type} (h : heap).

(** Modelled from the spec: the [accept] overrides (their bodies are
    not part of the sources).  [accept] on a concrete node invokes
    the single most specific visit operation for its kind; the
    override that runs is the one of the interface class the object
    derives from. *)
Definition accept (this : addr) (vis : vtable St) (s : St) : option St :=
  o ← h !! this;
  let c := dyn o in
  if derived_from c Program_cls then visit_program vis (Ptr this) s
  else if derived_from c Definition_cls then visit_definition vis (Ptr this) s
  else if derived_from c Evaluation_cls then visit_evaluation vis (Ptr this) s
  else if derived_from c Variable_cls then visit_variable vis (Ptr this) s
  else if derived_from c Abstraction_cls then visit_abstraction vis (Ptr this) s
  else if derived_from c Application_cls then visit_application vis (Ptr this) s
  else None.

(** Modelled from the spec: the generic [Visitor::visit_node] (its
    body is not part of the sources) dispatches on the node:
    [node->accept( *this )]. *)
Definition dispatch (this : vtable St) (n : ptr) (s : St) : option St :=
  match n with
  | Ptr a => accept a this s
  | nullptr => None
  end.

(** Modelled from the spec: the default body of every category-level
    operation (not part of the sources) visits all direct children
    of the node, first to last, through [visit_node]. *)
Definition visit_children (this : vtable St) (n : ptr) (s : St)
  : option St :=
  match n with
  | Ptr a => cs ← children h a; visit_each (visit_node this) cs s
  | nullptr => None
  end.

(** Modelled from the spec: the base class [Visitor]. *)
Definition Visitor : vclass St := λ this,
  {| visit_node := dispatch this;
     visit_program := visit_children this;
     visit_statement := visit_children this;
     visit_definition := visit_children this;
     visit_evaluation := visit_children this;
     visit_term := visit_children this;
     visit_variable := visit_children this;
     visit_abstraction := visit_children this;
     visit_application := visit_children this |}.
End base.

(** *** A visitor that counts nodes by kind *)
Record tally : Type := mk_tally {
  programs : nat;
  definitions : nat;
  evaluations : nat;
  variables : nat;
  abstractions : nat;
  applications : nat
}.

Definition no_tally : tally := mk_tally 0 0 0 0 0 0.

Definition add_tally (x y : tally) : tally :=
  mk_tally (programs x + programs y) (definitions x + definitions y)
           (evaluations x + evaluations y) (variables x + variables y)
           (abstractions x + abstractions y)
           (applications x + applications y).

Definition one (k : Kind) : tally :=
  match k with
  | Program_node => mk_tally 1 0 0 0 0 0
  | Definition_node => mk_tally 0 1 0 0 0 0
  | Evaluation_node => mk_tally 0 0 1 0 0 0
  | Variable_node => mk_tally 0 0 0 1 0 0
  | Abstraction_node => mk_tally 0 0 0 0 1 0
  | Application_node => mk_tally 0 0 0 0 0 1
  end.

(** Modelled from the spec: a visitor that takes note of the nodes it
    is given and keeps the default descent (no concrete visitor is part
    of the sources).  Each kind-specific operation notes the kind and
    the address of the node in the visitor's state and then runs the
    inherited default, [Visitor::visit_xxx(n)]; [visit_node] and the
    category operations [visit_statement] and [visit_term] are
    inherited as they are. *)
Definition Recorder {St} (note : St → Kind * ptr → St) (h : heap)
  : vclass St :=
  λ this,
  let super := Visitor h this in
  {| visit_node := visit_node super;
     visit_program := λ n s,
       visit_program super n (note s (Program_node, n));
     visit_statement := visit_statement super;
     visit_definition := λ n s,
       visit_definition super n (note s (Definition_node, n));
     visit_evaluation := λ n s,
       visit_evaluation super n (note s (Evaluation_node, n));
     visit_term := visit_term super;
     visit_variable := λ n s,
       visit_variable super n (note s (Variable_node, n));
     visit_abstraction := λ n s,
       visit_abstraction super n (note s (Abstraction_node, n));
     visit_application := λ n s,
       visit_application super n (note s (Application_node, n)) |}.

(** Driving a traversal: [root->accept(vis)]. *)
Definition record {St} (note : St → Kind * ptr → St) (fuel : nat)
    (h : heap) (root : addr) (s : St) : option St :=
  accept h root (bind_virtual fuel (Recorder note h)) s.

(** Modelled from the spec: the visitor of the default-traversal
    scenario, "a visitor counting nodes by kind".  It keeps the set of
    the nodes it has counted and a tally by kind; a node it is given
    again is not counted again. *)
Definition count_node (s : gset positive * tally) (kn : Kind * ptr)
  : gset positive * tally :=
  match kn.2 with
  | Ptr a => if decide (a ∈ s.1) then s
             else ({[a]} ∪ s.1, add_tally s.2 (one kn.1))
  | nullptr => s
  end.

Definition count_nodes (fuel : nat) (h : heap) (root : addr) : option tally :=
  snd <$> record count_node fuel h root (∅, no_tally).

(** The number of visits by kind, a node met twice counting twice. *)
Definition count_visit (s : tally) (kn : Kind * ptr) : tally :=
  add_tally s (one kn.1).

Definition count_visits (fuel : nat) (h : heap) (root : addr) : option tally :=
  record count_visit fuel h root no_tally.
End Visitor.

(** ** Sample trees *)

(** [Program[Evaluation(Application(Abstraction(x, x), Variable(x)))]],
    every occurrence of [x] being a node of its own. *)
Definition build_sample (x : ptr) : M addr :=
  v ← new_Variable_impl x;
  b ← new_Variable_impl x;
  f ← new_Abstraction_impl (Ptr v) (Ptr b);
  a ← new_Variable_impl x;
  app ← new_Application_impl (Ptr f) (Ptr a);
  ev ← new_Evaluation_impl (Ptr app);
  prog ← new_Program_impl;
  _ ← Program_add_statement prog (Ptr ev);
  mret prog.

(** The same program with one node for [x] placed in both slots of the
    abstraction. *)
Definition build_sample_shared (x : ptr) : M addr :=
  v ← new_Variable_impl x;
  f ← new_Abstraction_impl (Ptr v) (Ptr v);
  a ← new_Variable_impl x;
  app ← new_Application_impl (Ptr f) (Ptr a);
  ev ← new_Evaluation_impl (Ptr app);
  prog ← new_Program_impl;
  _ ← Program_add_statement prog (Ptr ev);
  mret prog.

(** Building a tree in the empty store and walking it from its root. *)
Definition count_sample (fuel : nat) (build : M addr) : option Visitor.tally :=
  match build ∅ with
  | Some (prog, h) => Visitor.count_nodes fuel h prog
  | None => None
  end.

Definition visits_sample (fuel : nat) (build : M addr)
  : option Visitor.tally :=
  match build ∅ with
  | Some (prog, h) => Visitor.count_visits fuel h prog
  | None => None
  end.

(** ** Operations of the framework

    The operations that take the store to a new store: the [new]
    expressions of the six implementation classes (the only classes of
    the header that are not abstract, each with its one constructor) and
    appending to a multi node.  Every other member function is [const]
    and is modelled as a function that reads the store. *)
Inductive Op : Type :=
| op_Variable_impl (sym : ptr)
| op_Abstraction_impl (var term : ptr)
| op_Application_impl (left right : ptr)
| op_Definition_impl (var term : ptr)
| op_Evaluation_impl (term : ptr)
| op_Program_impl
| op_add_node (this : addr) (n : ptr)
| op_add_statement (this : addr) (stmt : ptr).

Definition run_op (op : Op) : M unit :=
  match op with
  | op_Variable_impl sym => _ ← new_Variable_impl sym; mret tt
  | op_Abstraction_impl var term => _ ← new_Abstraction_impl var term; mret tt
  | op_Application_impl l r => _ ← new_Application_impl l r; mret tt
  | op_Definition_impl var term => _ ← new_Definition_impl var term; mret tt
  | op_Evaluation_impl term => _ ← new_Evaluation_impl term; mret tt
  | op_Program_impl => _ ← new_Program_impl; mret tt
  | op_add_node this n => Multi_node_add_node this n
  | op_add_statement this stmt => Program_add_statement this stmt
  end.

Fixpoint run_ops (ops : list Op) : M unit :=
  match ops with
  | [] => mret tt
  | op :: ops' => _ ← run_op op; run_ops ops'
  end.

(** [add_node] called once for each element of [ns], first to last. *)
Fixpoint add_nodes (this : addr) (ns : list ptr) : M unit :=
  match ns with
  | [] => mret tt
  | n :: ns' => _ ← Multi_node_add_node this n; add_nodes this ns'
  end.

(** The tag each implementation class is given by the interface
    constructor it runs; abstract classes have no objects of their own. *)
Definition class_kind (c : Class) : option Kind :=
  match c with
  | Program_impl => Some Program_node
  | Variable_impl => Some Variable_node
  | Abstraction_impl => Some Abstraction_node
  | Application_impl => Some Application_node
  | Definition_impl => Some Definition_node
  | Evaluation_impl => Some Evaluation_node
  | _ => None
  end.

(** A construction command yields a node at [a] in the new store [h']
    whose child range reads [kids]. *)
Definition builds (c : M addr) (h : heap) (kids : list ptr) : Prop :=
  ∃ a h', c h = Some (a, h') ∧ h !! a = None ∧ children h' a = Some kids.

(** The object [o] after [ns] has been pushed onto its [nodes]. *)
Definition grown (o : Object) (ns : list ptr) : Object :=
  mkObject (dyn o) (node o) (Multi_node (nodes_of (storage o) ++ ns))
           (members o).

(** A construction command yields an object of dynamic class [c] tagged
    [k] at an address that was unused before. *)
Definition constructs (cmd : M addr) (h : heap) (c : Class) (k : Kind)
  : Prop :=
  ∃ a h' o, cmd h = Some (a, h') ∧ h !! a = None ∧ h' !! a = Some o ∧
            dyn o = c ∧ kind (node o) = k.

(** Every object of the store carries the tag of its class. *)
Definition tagged (h : heap) : Prop :=
  ∀ a o, h !! a = Some o → class_kind (dyn o) = Some (kind (node o)).

(** The reading of "a null child is rejected at construction": building
    a unary or binary node from a null child pointer faults and leaves
    no node behind. *)
Definition rejects_null_children : Prop :=
  ∀ (h : heap) (c : Class) (Base : Node) (m : Members),
    new_ (complete c (Unary_node_ctor Base nullptr) m) h = None ∧
    ∀ left right, left = nullptr ∨ right = nullptr →
      new_ (complete c (Binary_node_ctor Base left right) m) h = None.

(** ** Trees held in the store

    The tree below a pointer, read off the store down to a given depth:
    each node with the tag of its class and the trees of its children in
    order.  Reading fails on a null or dangling child and when the depth
    is used up. *)
#[local] Unset Elimination Schemes.
Inductive tree : Type :=
| Tree (k : Kind) (a : addr) (kids : list tree).
#[local] Set Elimination Schemes.

Fixpoint tree_of (h : heap) (depth : nat) (p : ptr) : option tree :=
  match depth, p with
  | S d, Ptr a =>
      o ← h !! a;
      k ← class_kind (dyn o);
      kids ← mapM (tree_of h d) (nodes_of (storage o));
      Some (Tree k a kids)
  | _, _ => None
  end.

(** The nodes of a tree in pre-order, each with its kind: a node before
    its children, the children first to last. *)
Fixpoint preorder (t : tree) : list (Kind * ptr) :=
  match t with
  | Tree k a kids => (k, Ptr a) :: concat (preorder <$> kids)
  end.

(** [Program[Evaluation(Application(Abstraction(x, x), Variable(x)))]] as
    [build_sample_shared] lays it out in the empty store: node 1 is the
    [x] of the abstraction, in both of its slots, node 3 the argument. *)
Definition shared_tree : tree :=
  Tree Program_node 6
    [Tree Evaluation_node 5
       [Tree Application_node 4
          [Tree Abstraction_node 2
             [Tree Variable_node 1 []; Tree Variable_node 1 []];
           Tree Variable_node 3 []]]].

(** The same program as [build_sample] lays it out, every occurrence of
    [x] being a node of its own. *)
Definition sample_tree : tree :=
  Tree Program_node 7
    [Tree Evaluation_node 6
       [Tree Application_node 5
          [Tree Abstraction_node 3
             [Tree Variable_node 1 []; Tree Variable_node 2 []];
           Tree Variable_node 4 []]]].

(** The reading of "for every Multi_node the range length equals the
    number of add_node calls performed", whichever constructor built the
    node. *)
Definition multi_length_is_add_node_calls : Prop :=
  ∀ (h : heap) (c : Class) (Base : Node) (m : Members)
    (elems ns : list ptr) (a : addr) (h' : heap),
    (a ← new_ (complete c (Multi_node_ctor_range Base elems) m);
     _ ← add_nodes a ns; mret a) h = Some (a, h') →
    length <$> children h' a = Some (length ns).

(** The pointer an operation appends to the multi node at [this], if it
    is an append to that node, and the pointers a sequence of operations
    appends to it, in call order. *)
Definition added (this : addr) (op : Op) : list ptr :=
  match op with
  | op_add_node a n | op_add_statement a n =>
      if decide (a = this) then [n] else []
  | _ => []
  end.

Definition appended (this : addr) (ops : list Op) : list ptr :=
  ops ≫= added this.

(** ** Interfaces and kinds *)

(** The interface class whose constructor passes the tag to [Node]:
    [Variable() : Term(Variable_node)], [Program() : Node(Program_node)]
    and so on. *)
Definition interface_of (k : Kind) : Class :=
  match k with
  | Program_node => Program_cls
  | Variable_node => Variable_cls
  | Abstraction_node => Abstraction_cls
  | Application_node => Application_cls
  | Definition_node => Definition_cls
  | Evaluation_node => Evaluation_cls
  end.

(** The classes declared in the language interface part of the header
    (neither a shape instantiation nor an implementation class). *)
Definition is_interface (c : Class) : bool :=
  match c with
  | Node_cls | Term_cls | Variable_cls | Application_cls | Abstraction_cls
  | Statement_cls | Definition_cls | Evaluation_cls | Program_cls => true
  | _ => false
  end.

(** ** Declared pointer types

    The parameter types the header declares: [Variable* var, Term* term]
    for [Abstraction_impl] and [Definition_impl], [Term* left, Term*
    right] for [Application_impl], [Term* term] for [Evaluation_impl],
    [T* node] for [add_node] of [Multi_node<Program, Statement>] and
    [Statement* stmt] for [add_statement].
    [live_as h T a] reads: [a] is the address of a live object whose class
    derives from [T]. *)
Definition live_as (h : heap) (T : Class) (a : addr) : bool :=
  match h !! a with
  | Some o => derived_from (dyn o) T
  | None => false
  end.

Definition op_typed (h : heap) (op : Op) : bool :=
  match op with
  | op_Variable_impl _ => true
  | op_Abstraction_impl var term =>
      points_to h Variable_cls var && points_to h Term_cls term
  | op_Application_impl l r =>
      points_to h Term_cls l && points_to h Term_cls r
  | op_Definition_impl var term =>
      points_to h Variable_cls var && points_to h Term_cls term
  | op_Evaluation_impl term => points_to h Term_cls term
  | op_Program_impl => true
  | op_add_node this n =>
      live_as h Multi_node_Program_Statement this
      && points_to h Statement_cls n
  | op_add_statement this stmt =>
      live_as h Program_cls this && points_to h Statement_cls stmt
  end.

(** A run of operations each of which is applied to arguments of its
    declared types and does not fault. *)
Inductive typed_run
  : gmap positive Object → list Op → gmap positive Object → Prop :=
| typed_run_nil (h : heap) : typed_run h [] h
| typed_run_cons (h h1 h' : heap) (op : Op) (ops : list Op) :
    op_typed h op = true →
    run_op op h = Some (tt, h1) →
    typed_run h1 ops h' →
    typed_run h (op :: ops) h'.

(** The children an object holds have the types its constructor (or
    [add_node]) was declared with, and its storage is the one of its
    class. *)
Definition object_typed (h : heap) (o : Object) : bool :=
  match dyn o, storage o with
  | Variable_impl, Nullary_node => true
  | Abstraction_impl, Binary_node var term =>
      points_to h Variable_cls var && points_to h Term_cls term
  | Application_impl, Binary_node l r =>
      points_to h Term_cls l && points_to h Term_cls r
  | Definition_impl, Binary_node var term =>
      points_to h Variable_cls var && points_to h Term_cls term
  | Evaluation_impl, Unary_node term => points_to h Term_cls term
  | Program_impl, Multi_node v => forallb (points_to h Statement_cls) v
  | _, _ => false
  end.

Definition store_typed (h : heap) : Prop :=
  ∀ a o, h !! a = Some o → object_typed h o = true.

(** [b] is a child of the node at [a]. *)
Definition child_of (h : heap) (a b : addr) : Prop :=
  ∃ o, h !! a = Some o ∧ Ptr b ∈ nodes_of (storage o).

(** A height for the nodes of a store: every child lies strictly lower
    than its parent. *)
Definition ranked (h : heap) (ht : addr → nat) : Prop :=
  ∀ a b, child_of h a b → ht b < ht a.

(** The least height above the nodes a sequence of pointers names. *)
Fixpoint top (ht : addr → nat) (ps : list ptr) : nat :=
  match ps with
  | [] => 0
  | nullptr :: ps' => top ht ps'
  | Ptr b :: ps' => S (ht b) `max` top ht ps'
  end.

(** [h'] keeps every object of [h] at its address with its class. *)
Definition extends (h h' : heap) : Prop :=
  ∀ a o, h !! a = Some o → ∃ o', h' !! a = Some o' ∧ dyn o' = dyn o.

(** ** Destruction

    [delete p]: the destructor [~Node() { }] has an empty body and the
    shapes hold raw pointers (a vector of raw pointers frees its buffer,
    not the pointees), so the object at [p] is released and nothing else.
    Deleting where no object lives faults. *)
Definition delete_ (this : addr) : M unit :=
  λ h, match h !! this with
       | Some _ => Some (tt, delete this h)
       | None => None
       end.

(** ** The predicate of the copy test

    [bool odd(int n) { return n & 1; }] from
    [sequence/algorithm.test/copy.cpp]: the bitwise conjunction with 1 on
    a two's-complement integer, converted to [bool] (non-zero is true). *)
Module Copy_test.
Definition odd (n : Z) : bool := negb (Z.land n 1 =? 0)%Z.
End Copy_test.

(** * Properties *)

(** ** The class hierarchy *)

Lemma derived_from_refl (c : Class) : derived_from c c = true.
Proof. by destruct c. Qed.

Lemma derived_from_base (c b t : Class) :
  base_class c = Some b → derived_from b t = true → derived_from c t = true.
Proof.
  destruct c; simpl; intros [= <-]; destruct t; vm_compute; congruence.
Qed.

(** The bounded search decides the reflexive-transitive closure of the
    direct-base relation: the bound loses no ancestor. *)
Lemma derived_from_rtc (c t : Class) :
  derived_from c t = true ↔ rtc (λ x y, base_class x = Some y) c t.
Proof.
  split.
  - destruct c, t; vm_compute; intros H; try discriminate H;
      repeat first [ apply rtc_refl | eapply rtc_l; [ reflexivity | ] ].
  - induction 1 as [x | x y z Hxy _ IH].
    + apply derived_from_refl.
    + by eapply derived_from_base.
Qed.

Lemma Application_is_Term_not_Variable (c : Class) :
  derived_from c Application_cls = true →
  derived_from c Variable_cls = false ∧ derived_from c Term_cls = true.
Proof. destruct c; vm_compute; intros H; by try discriminate H. Qed.

(** ** The store *)

Lemma new_fresh (o : Object) (h : heap) :
  ∃ a, new_ o h = Some (a, <[a := o]> h) ∧ h !! a = None.
Proof.
  exists (fresh (dom h)). split; [done |].
  apply not_elem_of_dom, is_fresh.
Qed.

Lemma bind_Some {A B} (c : M A) (k : A → M B) (h h' : heap) (x : A) :
  c h = Some (x, h') → (c ≫= k) h = k x h'.
Proof. unfold mbind, M_bind, bind. by intros ->. Qed.

(** ** Child ranges *)

Lemma read_slots_nodes (h : heap) (a : addr) (o : Object) (n i : nat) :
  h !! a = Some o →
  i + n ≤ length (nodes_of (storage o)) →
  read_slots h n (Slot a i) = Some (take n (drop i (nodes_of (storage o)))).
Proof.
  intros Ho. revert i. induction n as [| n IH]; intros i Hlen; simpl.
  - done.
  - destruct (lookup_lt_is_Some_2 (nodes_of (storage o)) i) as [x Hx]; [lia |].
    unfold deref; simpl. rewrite Ho; simpl. rewrite Hx; simpl.
    unfold slot_add; simpl. replace (i + 1) with (S i) by lia.
    rewrite IH by lia; simpl.
    by rewrite (drop_S _ _ _ Hx).
Qed.

Lemma Node_begin_slot (h : heap) (a : addr) (o : Object) :
  h !! a = Some o → Node_begin h a = Some (Slot a 0).
Proof.
  intros Ho. unfold Node_begin. rewrite Ho; simpl. by destruct (storage o).
Qed.

Lemma Node_end_slot (h : heap) (a : addr) (o : Object) :
  h !! a = Some o →
  Node_end h a = Some (Slot a (length (nodes_of (storage o)))).
Proof.
  intros Ho. unfold Node_end. rewrite Ho; simpl.
  by destruct (storage o).
Qed.

Lemma range_elements_nodes (h : heap) (a : addr) (o : Object) :
  h !! a = Some o →
  range_elements h (Slot a 0) (Slot a (length (nodes_of (storage o))))
  = Some (nodes_of (storage o)).
Proof.
  intros Ho. unfold range_elements.
  rewrite decide_True by (simpl; split; [done | lia]).
  rewrite (read_slots_nodes h a o) by (simpl; lia || done).
  simpl. by rewrite Nat.sub_0_r, drop_0, firstn_all.
Qed.

Lemma children_nodes (h : heap) (a : addr) (o : Object) :
  h !! a = Some o → children h a = Some (nodes_of (storage o)).
Proof.
  intros Ho. unfold children.
  rewrite (Node_begin_slot h a o Ho), (Node_end_slot h a o Ho).
  by apply range_elements_nodes.
Qed.

Lemma new_builds (o : Object) (h : heap) :
  builds (new_ o) h (nodes_of (storage o)).
Proof.
  destruct (new_fresh o h) as (a & Hnew & Hfresh).
  exists a, (<[a := o]> h). split_and!; [done | done |].
  apply children_nodes, lookup_insert_eq.
Qed.

Lemma add_node_grown (h : heap) (this : addr) (o : Object) (v : list ptr)
    (n : ptr) :
  h !! this = Some o → storage o = Multi_node v →
  Multi_node_add_node this n h = Some (tt, <[this := grown o [n]]> h).
Proof.
  intros Ho Hs. unfold Multi_node_add_node, grown.
  rewrite Ho; simpl. by rewrite Hs.
Qed.

Lemma add_nodes_grown (ns : list ptr) :
  ∀ (h : heap) (this : addr) (o : Object) (v : list ptr),
    h !! this = Some o → storage o = Multi_node v →
    add_nodes this ns h = Some (tt, <[this := grown o ns]> h).
Proof.
  induction ns as [| n ns IH]; intros h this o v Ho Hs; simpl.
  - unfold grown. rewrite app_nil_r, insert_id; [done |].
    rewrite Ho. f_equal. destruct o as [c nd st m]; simpl in *. by subst.
  - rewrite (bind_Some _ _ _ _ _ (add_node_grown h this o v n Ho Hs)).
    rewrite (IH _ this (grown o [n]) (v ++ [n]));
      [| apply lookup_insert_eq | by simpl; rewrite Hs].
    rewrite insert_insert_eq. unfold grown; simpl.
    by rewrite Hs, <- app_assoc.
Qed.

(** ** Operations *)

Lemma new_inv (o : Object) (h h' : heap) (a : addr) :
  new_ o h = Some (a, h') → h !! a = None ∧ h' = <[a := o]> h.
Proof.
  destruct (new_fresh o h) as (a' & Hnew & Hfresh).
  rewrite Hnew. by intros [= <- <-].
Qed.

Lemma add_node_inv (this : addr) (n : ptr) (h h' : heap) :
  Multi_node_add_node this n h = Some (tt, h') →
  ∃ o v, h !! this = Some o ∧ storage o = Multi_node v ∧
         h' = <[this := grown o [n]]> h.
Proof.
  unfold Multi_node_add_node.
  destruct (h !! this) as [o |] eqn:Ho; simpl; [| done].
  destruct (storage o) as [| | | v] eqn:Hs; try done.
  intros [= <-]. exists o, v. split_and!; [done | done |].
  unfold grown. by rewrite Hs.
Qed.

Lemma add_statement_inv (this : addr) (n : ptr) (h h' : heap) :
  Program_add_statement this n h = Some (tt, h') →
  ∃ o v, h !! this = Some o ∧ storage o = Multi_node v ∧
         h' = <[this := grown o [n]]> h.
Proof.
  unfold Program_add_statement, virtual_call.
  destruct (h !! this) as [o |] eqn:Ho; simpl; [| done].
  case_decide; [| done]. unfold Program_impl_add_statement.
  intros Hadd.
  destruct (add_node_inv _ _ _ _ Hadd) as (o' & v & Ho' & Hs & ->).
  exists o', v. split_and!; [congruence | done | done].
Qed.

(** What a single operation does to the store: it places a newly
    constructed object, with no children yet if it is a multi node, at
    an unused address, or it pushes one pointer onto the [nodes] of an
    existing multi node. *)
Lemma run_op_inv (op : Op) (h h' : heap) :
  run_op op h = Some (tt, h') →
  (∃ a o, h !! a = None ∧ h' = <[a := o]> h ∧
          class_kind (dyn o) = Some (kind (node o)) ∧
          (∀ v, storage o = Multi_node v → v = []) ∧
          ∀ b, added b op = []) ∨
  (∃ a o n v, h !! a = Some o ∧ h' = <[a := grown o [n]]> h ∧
              storage o = Multi_node v ∧
              ∀ b, added b op = if decide (a = b) then [n] else []).
Proof.
  destruct op; simpl;
    try (unfold mbind, M_bind, bind;
         match goal with
         | |- context [?c h] =>
             destruct (c h) as [[a h1] |] eqn:Hn; [| done];
             apply new_inv in Hn as [Hf ->]
         end;
         intros [= <-]; left; eexists _, _; split_and!; try done;
         intros v Hv; by (discriminate Hv || injection Hv as <-)).
  - intros H. right.
    destruct (add_node_inv _ _ _ _ H) as (o & v & Ho & Hs & ->).
    by exists this, o, n, v.
  - intros H. right.
    destruct (add_statement_inv _ _ _ _ H) as (o & v & Ho & Hs & ->).
    by exists this, o, stmt, v.
Qed.

Lemma run_ops_cons (op : Op) (ops : list Op) (h h' : heap) :
  run_ops (op :: ops) h = Some (tt, h') →
  ∃ h1, run_op op h = Some (tt, h1) ∧ run_ops ops h1 = Some (tt, h').
Proof.
  simpl. unfold mbind, M_bind, bind.
  destruct (run_op op h) as [[[] h1] |]; [| done].
  intros H. by exists h1.
Qed.

Lemma run_ops_snoc (ops : list Op) (op : Op) :
  ∀ (h h' : heap),
    run_ops (ops ++ [op]) h = Some (tt, h') →
    ∃ h1, run_ops ops h = Some (tt, h1) ∧ run_op op h1 = Some (tt, h').
Proof.
  induction ops as [| op0 ops IH]; intros h h' Hrun.
  - apply run_ops_cons in Hrun as (h1 & H1 & Hnil).
    injection Hnil as <-. by exists h.
  - apply run_ops_cons in Hrun as (h0 & H0 & Hrest).
    destruct (IH h0 h' Hrest) as (h1 & H1 & Hop).
    exists h1. split; [| done].
    simpl. by rewrite (bind_Some _ _ _ _ _ H0).
Qed.

Lemma appended_snoc (this : addr) (ops : list Op) (op : Op) :
  appended this (ops ++ [op]) = appended this ops ++ added this op.
Proof.
  unfold appended. rewrite bind_app. f_equal.
  rewrite bind_cons. apply app_nil_r.
Qed.

(** In a store built by the framework a multi node holds exactly the
    pointers appended to it, in call order, and nothing was ever
    appended at an address that is still unused. *)
Lemma reachable_multi (ops : list Op) :
  ∀ (h : heap),
    run_ops ops ∅ = Some (tt, h) →
    (∀ a, h !! a = None → appended a ops = []) ∧
    (∀ a o v, h !! a = Some o → storage o = Multi_node v →
              v = appended a ops).
Proof.
  induction ops as [| op ops IH] using rev_ind; intros h Hrun.
  - injection Hrun as <-. split; [done |].
    intros a o v Ho. by rewrite lookup_empty in Ho.
  - apply run_ops_snoc in Hrun as (h1 & Hrun & Hop).
    destruct (IH h1 Hrun) as [Hnone Hsome].
    destruct (run_op_inv op h1 h Hop)
      as [(b & ob & Hb & -> & _ & Hempty & Hadd)
         | (b & ob & n & vb & Hb & -> & Hsb & Hadd)]; split.
    + intros a Ha. rewrite appended_snoc, Hadd, app_nil_r.
      apply Hnone. destruct (decide (b = a)) as [-> | Hne].
      * by rewrite lookup_insert_eq in Ha.
      * by rewrite lookup_insert_ne in Ha.
    + intros a o v Ho Hs. rewrite appended_snoc, Hadd, app_nil_r.
      destruct (decide (b = a)) as [-> | Hne].
      * rewrite lookup_insert_eq in Ho. injection Ho as <-.
        rewrite (Hnone a Hb). by apply Hempty.
      * rewrite lookup_insert_ne in Ho by done. by apply (Hsome a o).
    + intros a Ha. rewrite appended_snoc, Hadd.
      destruct (decide (b = a)) as [-> | Hne].
      * by rewrite lookup_insert_eq in Ha.
      * rewrite lookup_insert_ne in Ha by done.
        by rewrite (Hnone a Ha).
    + intros a o v Ho Hs. rewrite appended_snoc, Hadd.
      destruct (decide (b = a)) as [-> | Hne].
      * rewrite lookup_insert_eq in Ho. injection Ho as <-.
        simpl in Hs. rewrite Hsb in Hs. injection Hs as <-.
        by rewrite (Hsome a ob vb Hb Hsb).
      * rewrite lookup_insert_ne in Ho by done.
        rewrite app_nil_r. by apply (Hsome a o).
Qed.

(** ** Arity shapes *)

(** C1, as stated, fails for the multi shape: a multi node built by the
    iterator-range constructor (to which the range and initialiser-list
    constructors delegate) from two statements has two children although
    [add_node] was never called on it. *)
Lemma multi_range_without_add_node :
  let h : gmap positive Object :=
    {[ 1%positive := Evaluation_impl_ctor nullptr;
       2%positive := Evaluation_impl_ctor nullptr ]} in
  let o := complete Multi_node_Program_Statement
             (Multi_node_ctor_range Program_ctor [Ptr 1; Ptr 2])
             no_members in
  ¬ multi_length_is_add_node_calls ∧
  (a ← new_ o; _ ← add_nodes a []; mret a) h
  = Some (3%positive, <[3%positive := o]> h) ∧
  children (<[3%positive := o]> h) 3 = Some [Ptr 1; Ptr 2] ∧
  length <$> children (<[3%positive := o]> h) 3 ≠ Some (length (@nil ptr)).
Proof.
  intros h o.
  assert (Hrun : (a ← new_ o; _ ← add_nodes a []; mret a) h
                 = Some (3%positive, <[3%positive := o]> h))
    by reflexivity.
  assert (Hkids : children (<[3%positive := o]> h) 3 = Some [Ptr 1; Ptr 2])
    by reflexivity.
  split_and!; [| exact Hrun | exact Hkids | by rewrite Hkids].
  intros Hclaim.
  specialize (Hclaim h Multi_node_Program_Statement Program_ctor no_members
                [Ptr 1; Ptr 2] [] 3%positive _ Hrun).
  rewrite Hkids in Hclaim. discriminate Hclaim.
Qed.

(** C1, amended: the child range between [begin()] and [end()] has the
    length its arity shape fixes: empty for a nullary node
    ([begin() == end()]), the one constructor argument for a unary node,
    the two constructor arguments, left then right, for a binary node,
    and for a multi node the elements it was constructed from (none for
    the default constructor, the one [Program_impl] uses) followed by
    the arguments of the [add_node] calls performed on it, in call
    order. *)
Theorem child_range_by_shape :
  (∀ (h : heap) (this : addr) (o : Object),
      h !! this = Some o →
      match storage o with
      | Nullary_node =>
          Node_begin h this = Node_end h this ∧ children h this = Some []
      | Unary_node n0 => children h this = Some [n0]
      | Binary_node n0 n1 => children h this = Some [n0; n1]
      | Multi_node v =>
          children h this = Some v ∧
          ∀ ns, ∃ h', add_nodes this ns h = Some (tt, h') ∧
                      children h' this = Some (v ++ ns)
      end) ∧
  (∀ (h : heap) (c : Class) (Base : Node) (m : Members),
      builds (new_ (complete c (Nullary_node_ctor Base) m)) h []) ∧
  (∀ (h : heap) (c : Class) (Base : Node) (m : Members) (child : ptr),
      builds (new_ (complete c (Unary_node_ctor Base child) m)) h [child]) ∧
  (∀ (h : heap) (c : Class) (Base : Node) (m : Members) (left right : ptr),
      builds (new_ (complete c (Binary_node_ctor Base left right) m)) h
             [left; right]) ∧
  (∀ (h : heap) (c : Class) (Base : Node) (m : Members) (ns : list ptr),
      builds (a ← new_ (complete c (Multi_node_ctor Base) m);
              _ ← add_nodes a ns; mret a) h ns) ∧
  (∀ (h : heap) (c : Class) (Base : Node) (m : Members)
     (elems ns : list ptr),
      builds (a ← new_ (complete c (Multi_node_ctor_range Base elems) m);
              _ ← add_nodes a ns; mret a) h (elems ++ ns)) ∧
  (∀ (ops : list Op) (h : heap) (this : addr) (o : Object) (v : list ptr),
      run_ops ops ∅ = Some (tt, h) →
      h !! this = Some o → storage o = Multi_node v →
      children h this = Some (appended this ops) ∧
      length v = length (appended this ops)).
Proof.
  split_and!.
  - intros h this o Ho.
    pose proof (children_nodes h this o Ho) as Hc.
    pose proof (Node_begin_slot h this o Ho) as Hb.
    pose proof (Node_end_slot h this o Ho) as He.
    destruct (storage o) as [| n0 | n0 n1 | v] eqn:Hs; simpl in *;
      try done.
    + split; [congruence | done].
    + split; [done |]. intros ns.
      exists (<[this := grown o ns]> h). split.
      * by apply (add_nodes_grown ns h this o v).
      * rewrite (children_nodes _ this (grown o ns))
          by apply lookup_insert_eq.
        simpl. by rewrite Hs.
  - intros. apply new_builds.
  - intros. apply new_builds.
  - intros. apply new_builds.
  - intros h c Base m ns.
    set (o := complete c (Multi_node_ctor Base) m).
    destruct (new_fresh o h) as (a & Hnew & Hfresh).
    exists a, (<[a := grown o ns]> h). split_and!; [| done |].
    + rewrite (bind_Some _ _ _ _ _ Hnew).
      erewrite bind_Some;
        [| by apply (add_nodes_grown ns _ a o []); [apply lookup_insert_eq |]].
      by rewrite insert_insert_eq.
    + rewrite (children_nodes _ a (grown o ns)) by apply lookup_insert_eq.
      done.
  - intros h c Base m elems ns.
    set (o := complete c (Multi_node_ctor_range Base elems) m).
    destruct (new_fresh o h) as (a & Hnew & Hfresh).
    exists a, (<[a := grown o ns]> h). split_and!; [| done |].
    + rewrite (bind_Some _ _ _ _ _ Hnew).
      erewrite bind_Some;
        [| by apply (add_nodes_grown ns _ a o elems);
             [apply lookup_insert_eq |]].
      by rewrite insert_insert_eq.
    + rewrite (children_nodes _ a (grown o ns)) by apply lookup_insert_eq.
      done.
  - intros ops h this o v Hrun Ho Hs.
    destruct (reachable_multi ops h Hrun) as [_ Hsome].
    rewrite <- (Hsome this o v Ho Hs).
    rewrite (children_nodes h this o Ho). by rewrite Hs.
Qed.

Lemma child_range_by_shape_witness :
  let ops := [op_Program_impl; op_add_statement 1 (Ptr 7);
              op_add_node 1 nullptr] in
  ∃ h o,
    (run_ops ops ∅ = Some (tt, h) ∧ h !! 1%positive = Some o ∧
     storage o = Multi_node [Ptr 7; nullptr]) ∧
    children h 1 = Some [Ptr 7; nullptr] ∧
    length [Ptr 7; nullptr] = 2.
Proof.
  intros ops.
  assert (Hrun : ∃ h o, run_ops ops ∅ = Some (tt, h) ∧
                        h !! 1%positive = Some o ∧
                        storage o = Multi_node [Ptr 7; nullptr]).
  { eexists _, _. split_and!; vm_compute; reflexivity. }
  destruct Hrun as (h & o & Hrun & Ho & Hs).
  exists h, o. split; [by split_and! |].
  destruct child_range_by_shape as (_ & _ & _ & _ & _ & _ & Hreach).
  exact (Hreach ops h 1%positive o _ Hrun Ho Hs).
Defined.

(** ** Binary nodes *)

(** C8: on every binary node [first()] returns the same child as
    [left()] and [second()] the same child as [right()]; on a node built
    from [left] and [right] these are the two constructor arguments. *)
Theorem first_second_alias_left_right :
  (∀ (h : heap) (this : addr),
      Binary_node_first h this = Binary_node_left h this ∧
      Binary_node_second h this = Binary_node_right h this) ∧
  (∀ (h : heap) (this : addr) (o : Object) (n0 n1 : ptr),
      h !! this = Some o → storage o = Binary_node n0 n1 →
      Binary_node_first h this = Some n0 ∧
      Binary_node_left h this = Some n0 ∧
      Binary_node_second h this = Some n1 ∧
      Binary_node_right h this = Some n1).
Proof.
  split.
  - intros h this. by split.
  - intros h this o n0 n1 Ho Hs.
    unfold Binary_node_first, Binary_node_left, Binary_node_second,
      Binary_node_right, Binary_node_nodes.
    rewrite Ho; simpl. by rewrite Hs.
Qed.

Lemma first_second_alias_left_right_witness :
  let o := Application_impl_ctor (Ptr 5) nullptr in
  let h : gmap positive Object := {[ 7%positive := o ]} in
  (h !! 7%positive = Some o ∧ storage o = Binary_node (Ptr 5) nullptr) ∧
  Binary_node_first h 7 = Some (Ptr 5) ∧
  Binary_node_left h 7 = Some (Ptr 5) ∧
  Binary_node_second h 7 = Some nullptr ∧
  Binary_node_right h 7 = Some nullptr.
Proof.
  intros o h.
  assert (Hl : h !! 7%positive = Some o) by reflexivity.
  assert (Hs : storage o = Binary_node (Ptr 5) nullptr) by reflexivity.
  split; [by split |].
  exact (proj2 first_second_alias_left_right h 7%positive o _ _ Hl Hs).
Defined.

(** ** Dynamic type query *)

Lemma as_live (T : Class) (h : heap) (a : addr) (o : Object) :
  h !! a = Some o →
  as_ T h (Ptr a) = Some (if derived_from (dyn o) T then Ptr a else nullptr).
Proof. intros Ho. unfold as_, dynamic_cast. by rewrite Ho. Qed.

Lemma as_points_to (T : Class) (h : heap) (p : ptr) :
  points_to h T p = true → as_ T h p = Some p.
Proof.
  destruct p as [| a]; [done |]. unfold points_to.
  destruct (h !! a) as [o |] eqn:Ho; [| done].
  intros Hd. by rewrite (as_live T h a o Ho), Hd.
Qed.

(** C2: for a node [N] and a target [T], [is<T>(N)] is true exactly when
    [as<T>(N)] is non-null, and a non-null [as<T>(N)] is the address of
    [N] itself; for an Application node [A], [as<Variable>(A)] is null
    and [as<Term>(A)] is [A]. *)
Theorem is_iff_as_present :
  ∀ (h : heap) (T : Class) (a : addr) (o : Object),
    h !! a = Some o →
    (is_ T h (Ptr a) = Some true ↔
       ∃ q, as_ T h (Ptr a) = Some q ∧ q ≠ nullptr) ∧
    (is_ T h (Ptr a) = Some false ↔ as_ T h (Ptr a) = Some nullptr) ∧
    (∀ q, as_ T h (Ptr a) = Some q → q ≠ nullptr → q = Ptr a) ∧
    (derived_from (dyn o) Application_cls = true →
       as_ Variable_cls h (Ptr a) = Some nullptr ∧
       as_ Term_cls h (Ptr a) = Some (Ptr a)).
Proof.
  intros h T a o Ho. unfold is_. rewrite !(as_live _ h a o Ho).
  split_and!.
  - destruct (derived_from (dyn o) T); simpl; split.
    + intros _. by exists (Ptr a).
    + done.
    + done.
    + intros (q & [= <-] & Hq). done.
  - destruct (derived_from (dyn o) T); simpl; split; done.
  - intros q [= <-]. by destruct (derived_from (dyn o) T).
  - intros HA. destruct (Application_is_Term_not_Variable _ HA) as [-> ->].
    done.
Qed.

Lemma is_iff_as_present_witness :
  let o := Application_impl_ctor nullptr nullptr in
  let h : gmap positive Object := {[ 3%positive := o ]} in
  (h !! 3%positive = Some o ∧ derived_from (dyn o) Application_cls = true) ∧
  as_ Variable_cls h (Ptr 3) = Some nullptr ∧
  as_ Term_cls h (Ptr 3) = Some (Ptr 3).
Proof.
  intros o h.
  assert (Hl : h !! 3%positive = Some o) by reflexivity.
  assert (Hd : derived_from (dyn o) Application_cls = true) by reflexivity.
  split; [by split |].
  destruct (is_iff_as_present h Term_cls 3%positive o Hl) as (_ & _ & _ & HA).
  exact (HA Hd).
Defined.

(** C9: the type query accepts a null pointer: for every target [T],
    [as<T>(nullptr)] is null and [is<T>(nullptr)] is false, in every
    store. *)
Theorem query_of_null :
  ∀ (T : Class) (h : heap),
    as_ T h nullptr = Some nullptr ∧ is_ T h nullptr = Some false.
Proof. intros T h. by split. Qed.

(** ** Programs *)

Lemma Program_statements_range (h : heap) (this : addr) (o : Object) :
  h !! this = Some o → dyn o = Program_impl →
  ∃ r, Program_statements h this = Some r ∧
       Node_begin h this = Some (Node_range.begin r) ∧
       Node_end h this = Some (Node_range.end_ r) ∧
       Node_range.elements h r = children h this ∧
       children h this = Some (nodes_of (storage o)).
Proof.
  intros Ho Hd.
  pose proof (Node_begin_slot h this o Ho) as Hb.
  pose proof (Node_end_slot h this o Ho) as He.
  eexists. split_and!.
  - unfold Program_statements, virtual_call. rewrite Ho; simpl.
    rewrite decide_True by done.
    unfold Program_impl_statements. rewrite Hb, He. reflexivity.
  - by rewrite Hb.
  - by rewrite He.
  - unfold Node_range.elements, children. by rewrite Hb, He.
  - by apply children_nodes.
Qed.

(** C10: for every Program node the range returned by [statements()] is
    the node's own child range: it starts at [begin()], stops at [end()]
    and iterating it reads the same pointers in the same order. *)
Theorem statements_is_child_range :
  ∀ (h : heap) (this : addr) (o : Object),
    h !! this = Some o → dyn o = Program_impl →
    ∃ r, Program_statements h this = Some r ∧
         Node_begin h this = Some (Node_range.begin r) ∧
         Node_end h this = Some (Node_range.end_ r) ∧
         Node_range.elements h r = children h this ∧
         children h this = Some (nodes_of (storage o)).
Proof. exact Program_statements_range. Qed.

Lemma statements_is_child_range_witness :
  let o := grown Program_impl_ctor [Ptr 4; Ptr 9] in
  let h : gmap positive Object := {[ 2%positive := o ]} in
  (h !! 2%positive = Some o ∧ dyn o = Program_impl) ∧
  ∃ r, Program_statements h 2 = Some r ∧
       Node_range.elements h r = Some [Ptr 4; Ptr 9].
Proof.
  intros o h.
  assert (Hl : h !! 2%positive = Some o) by reflexivity.
  assert (Hd : dyn o = Program_impl) by reflexivity.
  split; [by split |].
  destruct (statements_is_child_range h 2%positive o Hl Hd)
    as (r & Hr & _ & _ & He & Hc).
  exists r. split; [exact Hr |]. rewrite He. exact Hc.
Defined.

Lemma add_statement_grown (h : heap) (this : addr) (o : Object)
    (v : list ptr) (n : ptr) :
  h !! this = Some o → dyn o = Program_impl → storage o = Multi_node v →
  Program_add_statement this n h = Some (tt, <[this := grown o [n]]> h).
Proof.
  intros Ho Hd Hs. unfold Program_add_statement, virtual_call.
  rewrite Ho; simpl. rewrite decide_True by done.
  by apply (add_node_grown h this o v).
Qed.

(** C6: [add_node] puts the new element at the end: the children read
    before the call are still the first children afterwards, in the same
    order, however many appends follow, and no other object changes.
    Three [add_statement] calls on a new Program give [statements()]
    three elements in call order. *)
Theorem add_node_appends :
  (∀ (h : heap) (this : addr) (o : Object) (v : list ptr) (n : ptr),
      h !! this = Some o → storage o = Multi_node v →
      ∃ h', Multi_node_add_node this n h = Some (tt, h') ∧
            children h this = Some v ∧
            children h' this = Some (v ++ [n]) ∧
            (∀ b, b ≠ this → h' !! b = h !! b) ∧
            (∀ ns, ∃ h'', add_nodes this ns h' = Some (tt, h'') ∧
                          children h'' this = Some (v ++ [n] ++ ns))) ∧
  (∀ (h : heap) (d1 d2 d3 : ptr),
      ∃ prog h' r,
        (p ← new_Program_impl;
         _ ← Program_add_statement p d1;
         _ ← Program_add_statement p d2;
         _ ← Program_add_statement p d3;
         mret p) h = Some (prog, h') ∧
        Program_statements h' prog = Some r ∧
        Node_range.elements h' r = Some [d1; d2; d3] ∧
        length <$> Node_range.elements h' r = Some 3).
Proof.
  split.
  - intros h this o v n Ho Hs.
    exists (<[this := grown o [n]]> h).
    assert (Hg : (<[this := grown o [n]]> h) !! this = Some (grown o [n]))
      by apply lookup_insert_eq.
    split_and!.
    + by apply (add_node_grown h this o v).
    + rewrite (children_nodes h this o Ho). by rewrite Hs.
    + rewrite (children_nodes _ this _ Hg). simpl. by rewrite Hs.
    + intros b Hb. by apply lookup_insert_ne.
    + intros ns. eexists. split.
      * apply (add_nodes_grown ns _ this _ (v ++ [n]) Hg).
        simpl. by rewrite Hs.
      * rewrite (children_nodes _ this (grown (grown o [n]) ns))
          by (rewrite insert_insert_eq; apply lookup_insert_eq).
        simpl. by rewrite Hs, <- app_assoc.
  - intros h d1 d2 d3.
    destruct (new_fresh Program_impl_ctor h) as (a & Hnew & _).
    set (o0 := Program_impl_ctor) in *.
    set (o3 := grown (grown (grown o0 [d1]) [d2]) [d3]).
    assert (Hrun :
      (p ← new_Program_impl;
       _ ← Program_add_statement p d1;
       _ ← Program_add_statement p d2;
       _ ← Program_add_statement p d3;
       mret p) h = Some (a, <[a := o3]> h)).
    { rewrite (bind_Some _ _ _ _ _ Hnew).
      erewrite bind_Some by
        (by eapply add_statement_grown; [apply lookup_insert_eq | |]).
      rewrite insert_insert_eq.
      erewrite bind_Some by
        (by eapply add_statement_grown; [apply lookup_insert_eq | |]).
      rewrite insert_insert_eq.
      erewrite bind_Some by
        (by eapply add_statement_grown; [apply lookup_insert_eq | |]).
      by rewrite insert_insert_eq. }
    assert (Hl : (<[a := o3]> h) !! a = Some o3) by apply lookup_insert_eq.
    destruct (Program_statements_range _ a o3 Hl eq_refl)
      as (r & Hr & _ & _ & He & Hc).
    exists a, (<[a := o3]> h), r.
    split_and!; [done | done | |]; by rewrite He, Hc.
Qed.

Lemma add_node_appends_witness :
  let o := grown Program_impl_ctor [Ptr 4] in
  let h : gmap positive Object := {[ 2%positive := o ]} in
  (h !! 2%positive = Some o ∧ storage o = Multi_node [Ptr 4]) ∧
  ∃ h', Multi_node_add_node 2 (Ptr 9) h = Some (tt, h') ∧
        children h 2 = Some [Ptr 4] ∧
        children h' 2 = Some [Ptr 4; Ptr 9].
Proof.
  intros o h.
  assert (Hl : h !! 2%positive = Some o) by reflexivity.
  assert (Hs : storage o = Multi_node [Ptr 4]) by reflexivity.
  split; [by split |].
  destruct (proj1 add_node_appends h 2%positive o _ (Ptr 9) Hl Hs)
    as (h' & Hadd & Hc & Hc' & _).
  exists h'. by split_and!.
Defined.

(** ** Kind tags *)

Lemma new_constructs (o : Object) (h : heap) :
  constructs (new_ o) h (dyn o) (kind (node o)).
Proof.
  destruct (new_fresh o h) as (a & Hnew & Hfresh).
  exists a, (<[a := o]> h), o. split_and!; try done.
  apply lookup_insert_eq.
Qed.

Lemma run_op_keeps (op : Op) (h h' : heap) (a : addr) (o : Object) :
  run_op op h = Some (tt, h') → h !! a = Some o →
  ∃ o', h' !! a = Some o' ∧ dyn o' = dyn o ∧ node o' = node o.
Proof.
  intros Hrun Ho.
  destruct (run_op_inv op h h' Hrun)
    as [(b & ob & Hb & -> & _) | (b & ob & n & vb & Hb & -> & _)].
  - exists o. rewrite lookup_insert_ne by congruence. done.
  - destruct (decide (b = a)) as [-> | Hne].
    + exists (grown ob [n]). rewrite lookup_insert_eq.
      rewrite Ho in Hb. by injection Hb as ->.
    + exists o. by rewrite lookup_insert_ne.
Qed.

Lemma run_op_tagged (op : Op) (h h' : heap) :
  run_op op h = Some (tt, h') → tagged h → tagged h'.
Proof.
  intros Hrun Ht a o.
  destruct (run_op_inv op h h' Hrun)
    as [(b & ob & Hb & -> & Hk & _) | (b & ob & n & vb & Hb & -> & _)];
    (destruct (decide (b = a)) as [-> | Hne];
     [rewrite lookup_insert_eq; intros [= <-]
     | rewrite lookup_insert_ne by done; apply Ht]).
  - done.
  - simpl. by apply (Ht a).
Qed.

(** C7: each constructor tags the new node with the tag of its class:
    Program nodes [Program_node], Variable nodes [Variable_node],
    Abstraction nodes [Abstraction_node], Application nodes
    [Application_node], Definition nodes [Definition_node], Evaluation
    nodes [Evaluation_node]; distinct classes have distinct tags; and no
    sequence of framework operations changes the kind of an existing
    node, so every node of a store built by the framework carries the
    tag of its class. *)
Theorem kind_fixed_at_construction :
  (∀ (h : heap) (sym : ptr),
      constructs (new_Variable_impl sym) h Variable_impl Variable_node) ∧
  (∀ (h : heap) (var term : ptr),
      constructs (new_Abstraction_impl var term) h
                 Abstraction_impl Abstraction_node) ∧
  (∀ (h : heap) (left right : ptr),
      constructs (new_Application_impl left right) h
                 Application_impl Application_node) ∧
  (∀ (h : heap) (var term : ptr),
      constructs (new_Definition_impl var term) h
                 Definition_impl Definition_node) ∧
  (∀ (h : heap) (term : ptr),
      constructs (new_Evaluation_impl term) h
                 Evaluation_impl Evaluation_node) ∧
  (∀ (h : heap),
      constructs new_Program_impl h Program_impl Program_node) ∧
  (∀ (c1 c2 : Class) (k : Kind),
      class_kind c1 = Some k → class_kind c2 = Some k → c1 = c2) ∧
  (∀ (ops : list Op) (h h' : heap) (a : addr) (o : Object),
      run_ops ops h = Some (tt, h') → h !! a = Some o →
      ∃ o', h' !! a = Some o' ∧ dyn o' = dyn o ∧
            kind (node o') = kind (node o)) ∧
  (∀ (ops : list Op) (h : heap),
      run_ops ops ∅ = Some (tt, h) → tagged h).
Proof.
  split_and!; try (intros; apply new_constructs).
  - intros c1 c2 k. destruct c1; simpl; try done;
      intros [= <-]; destruct c2; simpl; done.
  - intros ops. induction ops as [| op ops IH]; intros h h' a o Hrun Ho.
    + injection Hrun as <-. by exists o.
    + apply run_ops_cons in Hrun as (h1 & H1 & Hrest).
      destruct (run_op_keeps op h h1 a o H1 Ho) as (o1 & Ho1 & Hd1 & Hn1).
      destruct (IH h1 h' a o1 Hrest Ho1) as (o' & Ho' & Hd' & Hk').
      exists o'. split_and!; [done | congruence | congruence].
  - intros ops h.
    assert (Hgen : ∀ h0, tagged h0 → run_ops ops h0 = Some (tt, h) → tagged h).
    { clear. induction ops as [| op ops IH]; intros h0 Ht Hrun.
      - by injection Hrun as <-.
      - apply run_ops_cons in Hrun as (h1 & H1 & Hrest).
        eapply IH; [| done]. by eapply run_op_tagged. }
    apply Hgen. intros a o. by rewrite lookup_empty.
Qed.

Lemma kind_fixed_at_construction_witness :
  let ops := [op_Program_impl; op_Evaluation_impl nullptr;
              op_add_statement 1 (Ptr 2)] in
  ∃ h, run_ops ops ∅ = Some (tt, h) ∧
       kind ∘ node <$> h !! 1%positive = Some Program_node ∧
       tagged h.
Proof.
  intros ops.
  assert (Hrun : ∃ h, run_ops ops ∅ = Some (tt, h) ∧
                      kind ∘ node <$> h !! 1%positive = Some Program_node).
  { eexists. split; vm_compute; reflexivity. }
  destruct Hrun as (h & Hrun & Hk).
  exists h. split_and!; [exact Hrun | exact Hk |].
  destruct kind_fixed_at_construction as (_ & _ & _ & _ & _ & _ & _ & _ & Ht).
  exact (Ht ops h Hrun).
Defined.

(** ** Null children *)

(** C3, as stated, fails: [Evaluation_impl(nullptr)] and
    [Application_impl(nullptr, nullptr)] are constructed in the empty
    store, and the null pointers are only met when the children are
    read. *)
Lemma null_child_not_rejected :
  ¬ rejects_null_children ∧
  new_Evaluation_impl nullptr ∅
  = Some (1%positive, {[ 1%positive := Evaluation_impl_ctor nullptr ]}) ∧
  children {[ 1%positive := Evaluation_impl_ctor nullptr ]} 1
  = Some [nullptr] ∧
  new_Application_impl nullptr nullptr ∅
  = Some (1%positive,
          {[ 1%positive := Application_impl_ctor nullptr nullptr ]}) ∧
  children {[ 1%positive := Application_impl_ctor nullptr nullptr ]} 1
  = Some [nullptr; nullptr].
Proof.
  split_and!; try reflexivity.
  intros Hrej.
  destruct (Hrej ∅ Evaluation_impl Evaluation_ctor no_members) as [Hnone _].
  discriminate Hnone.
Qed.

(** C3, amended: the unary and binary constructors check nothing; for
    any child pointers, null included, construction yields a node whose
    child range holds exactly the pointers given, and [term()] of an
    Evaluation built from null is null. *)
Theorem null_child_is_stored :
  (∀ (h : heap) (c : Class) (Base : Node) (m : Members),
      builds (new_ (complete c (Unary_node_ctor Base nullptr) m)) h
             [nullptr]) ∧
  (∀ (h : heap) (c : Class) (Base : Node) (m : Members) (p : ptr),
      builds (new_ (complete c (Binary_node_ctor Base nullptr p) m)) h
             [nullptr; p] ∧
      builds (new_ (complete c (Binary_node_ctor Base p nullptr) m)) h
             [p; nullptr]) ∧
  (∀ (h : heap),
      ∃ a h', new_Evaluation_impl nullptr h = Some (a, h') ∧
              Evaluation_term h' a = Some nullptr).
Proof.
  split_and!.
  - intros. apply new_builds.
  - intros. split; apply new_builds.
  - intros h.
    destruct (new_fresh (Evaluation_impl_ctor nullptr) h) as (a & Hnew & _).
    exists a, (<[a := Evaluation_impl_ctor nullptr]> h). split; [done |].
    unfold Evaluation_term, virtual_call, Evaluation_impl_term,
      Unary_node_first, Unary_node_nodes.
    rewrite lookup_insert_eq. done.
Qed.

(** ** Accessors *)

Lemma points_to_insert (h : heap) (T : Class) (p : ptr) (a : addr)
    (o : Object) :
  h !! a = None → points_to h T p = true →
  points_to (<[a := o]> h) T p = true.
Proof.
  intros Hfresh. destruct p as [| b]; [done |]. unfold points_to.
  destruct (h !! b) as [ob |] eqn:Hb; [| done].
  rewrite lookup_insert_ne by congruence. by rewrite Hb.
Qed.

(** C5: the accessors of a newly constructed node return the
    constructor arguments: [symbol()] and the spelling of the symbol for
    a Variable, [var()] and [term()] for an Abstraction, [func()] and
    [arg()] for an Application, [var()] and [def()] for a Definition,
    [term()] for an Evaluation.  The arguments of the last two are read
    back through [as<>], so they are taken at their declared types
    ([Variable*], [Term*]). *)
Theorem accessors_return_arguments :
  (∀ (st : symtab) (h : heap) (sym : ptr),
      ∃ a h', new_Variable_impl sym h = Some (a, h') ∧
              Variable_symbol h' a = Some sym ∧
              ∀ s sy, sym = Ptr s → st !! s = Some sy →
                      Variable_name st h' a = Some (spelling sy)) ∧
  (∀ (h : heap) (v t : ptr),
      ∃ a h', new_Abstraction_impl v t h = Some (a, h') ∧
              Abstraction_var h' a = Some v ∧
              Abstraction_term h' a = Some t) ∧
  (∀ (h : heap) (f x : ptr),
      ∃ a h', new_Application_impl f x h = Some (a, h') ∧
              Application_func h' a = Some f ∧
              Application_arg h' a = Some x) ∧
  (∀ (h : heap) (v t : ptr),
      points_to h Variable_cls v = true → points_to h Term_cls t = true →
      ∃ a h', new_Definition_impl v t h = Some (a, h') ∧
              Definition_var h' a = Some v ∧
              Definition_def h' a = Some t) ∧
  (∀ (h : heap) (t : ptr),
      points_to h Term_cls t = true →
      ∃ a h', new_Evaluation_impl t h = Some (a, h') ∧
              Evaluation_term h' a = Some t).
Proof.
  split_and!.
  - intros st h sym.
    destruct (new_fresh (Variable_impl_ctor sym) h) as (a & Hnew & _).
    exists a, (<[a := Variable_impl_ctor sym]> h). split_and!; [done | |].
    + unfold Variable_symbol, virtual_call, Variable_impl_symbol.
      by rewrite lookup_insert_eq.
    + intros s sy -> Hsy.
      unfold Variable_name, virtual_call, Variable_impl_name,
        Variable_impl_symbol.
      rewrite lookup_insert_eq; simpl. by rewrite Hsy.
  - intros h v t.
    destruct (new_fresh (Abstraction_impl_ctor v t) h) as (a & Hnew & _).
    exists a, (<[a := Abstraction_impl_ctor v t]> h).
    unfold Abstraction_var, Abstraction_term, virtual_call,
      Abstraction_impl_var, Abstraction_impl_term, Binary_node_nodes.
    by rewrite lookup_insert_eq.
  - intros h f x.
    destruct (new_fresh (Application_impl_ctor f x) h) as (a & Hnew & _).
    exists a, (<[a := Application_impl_ctor f x]> h).
    unfold Application_func, Application_arg, virtual_call,
      Application_impl_func, Application_impl_arg, Binary_node_nodes.
    by rewrite lookup_insert_eq.
  - intros h v t Hv Ht.
    destruct (new_fresh (Definition_impl_ctor v t) h) as (a & Hnew & Hfresh).
    set (o := Definition_impl_ctor v t) in *.
    exists a, (<[a := o]> h).
    pose proof (as_points_to _ _ _ (points_to_insert h _ v a o Hfresh Hv))
      as Hasv.
    pose proof (as_points_to _ _ _ (points_to_insert h _ t a o Hfresh Ht))
      as Hast.
    unfold Definition_var, Definition_def, virtual_call,
      Definition_impl_var, Definition_impl_def, Binary_node_first,
      Binary_node_second, Binary_node_nodes.
    rewrite lookup_insert_eq; simpl. by rewrite Hasv, Hast.
  - intros h t Ht.
    destruct (new_fresh (Evaluation_impl_ctor t) h) as (a & Hnew & Hfresh).
    set (o := Evaluation_impl_ctor t) in *.
    exists a, (<[a := o]> h).
    pose proof (as_points_to _ _ _ (points_to_insert h _ t a o Hfresh Ht))
      as Hast.
    unfold Evaluation_term, virtual_call, Evaluation_impl_term,
      Unary_node_first, Unary_node_nodes.
    rewrite lookup_insert_eq; simpl. by rewrite Hast.
Qed.

Lemma accessors_return_arguments_witness :
  let h : gmap positive Object :=
    {[ 1%positive := Variable_impl_ctor (Ptr 1);
       2%positive := Variable_impl_ctor (Ptr 1) ]} in
  (points_to h Variable_cls (Ptr 1) = true ∧
   points_to h Term_cls (Ptr 2) = true) ∧
  ∃ a h', new_Definition_impl (Ptr 1) (Ptr 2) h = Some (a, h') ∧
          Definition_var h' a = Some (Ptr 1) ∧
          Definition_def h' a = Some (Ptr 2).
Proof.
  intros h.
  assert (Hv : points_to h Variable_cls (Ptr 1) = true) by reflexivity.
  assert (Ht : points_to h Term_cls (Ptr 2) = true) by reflexivity.
  split; [by split |].
  destruct accessors_return_arguments as (_ & _ & _ & Hdef & _).
  exact (Hdef h (Ptr 1) (Ptr 2) Hv Ht).
Defined.

(** ** The default walk *)

(** The default operations read the children of the node and hand each
    of them to [visit_node], first to last. *)
Lemma visit_children_each {St} (h : heap) (this : Visitor.vtable St)
    (a : addr) (o : Object) (s : St) :
  h !! a = Some o →
  Visitor.visit_children h this (Ptr a) s
  = Visitor.visit_each (Visitor.visit_node this) (nodes_of (storage o)) s.
Proof.
  intros Ho. unfold Visitor.visit_children.
  by rewrite (children_nodes h a o Ho).
Qed.

Section recorder.
Context {St : Type} (note : St → Kind * ptr → St) (h : heap).

Let walker (fuel : nat) : Visitor.vtable St :=
  Visitor.bind_virtual fuel (Visitor.Recorder note h).

Lemma visit_each_preorder (f : ptr → St → option St) (cs : list ptr)
    (ts : list tree) :
  Forall2 (λ c t, ∀ s, f c s = Some (foldl note s (preorder t))) cs ts →
  ∀ s, Visitor.visit_each f cs s
       = Some (foldl note s (concat (preorder <$> ts))).
Proof.
  induction 1 as [| c t cs ts Hc _ IH]; intros s; simpl; [done |].
  rewrite Hc; simpl. rewrite IH. by rewrite foldl_app.
Qed.

(** One step of the walk: two virtual calls, [visit_node] and the
    operation of the node's kind, take it from a node to its children,
    the node being noted first. *)
Lemma recorder_step (fuel : nat) (a : addr) (o : Object) (k : Kind) (s : St) :
  h !! a = Some o → class_kind (dyn o) = Some k →
  Visitor.visit_node (walker (S (S fuel))) (Ptr a) s
  = Visitor.visit_each (Visitor.visit_node (walker fuel))
                       (nodes_of (storage o)) (note s (k, Ptr a)).
Proof.
  intros Ho Hk.
  rewrite <- (visit_children_each h _ a o _ Ho).
  change (Visitor.accept h a (walker (S fuel)) s
          = Visitor.visit_children h (walker fuel) (Ptr a)
              (note s (k, Ptr a))).
  unfold Visitor.accept. rewrite Ho; simpl.
  destruct (dyn o); simpl in Hk; try discriminate Hk;
    injection Hk as <-; reflexivity.
Qed.

(** The walk notes the nodes of the whole tree below the pointer in
    pre-order, whatever fuel beyond twice the depth it has. *)
Lemma recorder_visits_tree (d : nat) :
  ∀ (p : ptr) (t : tree),
    tree_of h d p = Some t →
    ∀ fuel, 2 * d ≤ fuel →
    ∀ s, Visitor.visit_node (walker fuel) p s
         = Some (foldl note s (preorder t)).
Proof.
  induction d as [| d IH]; intros p t Ht fuel Hfuel s; [done |].
  destruct p as [| a]; [done |]. simpl in Ht.
  destruct (h !! a) as [o |] eqn:Ho; [| done]. simpl in Ht.
  destruct (class_kind (dyn o)) as [k |] eqn:Hk; [| done]. simpl in Ht.
  destruct (mapM (tree_of h d) (nodes_of (storage o))) as [kids |] eqn:Hkids;
    [| done].
  injection Ht as <-.
  destruct fuel as [| [| fuel]]; [lia | lia |].
  rewrite (recorder_step fuel a o k s Ho Hk).
  rewrite (visit_each_preorder _ _ kids); [done |].
  apply mapM_Some_1 in Hkids.
  eapply Forall2_impl; [exact Hkids |].
  intros c tc Hc s'. apply (IH c tc Hc). lia.
Qed.

Lemma record_tree (d : nat) (root : addr) (t : tree) (fuel : nat) (s : St) :
  tree_of h d (Ptr root) = Some t → 2 * d ≤ S fuel →
  Visitor.record note fuel h root s = Some (foldl note s (preorder t)).
Proof.
  intros Ht Hfuel.
  exact (recorder_visits_tree d _ t Ht (S fuel) Hfuel s).
Qed.
End recorder.

Lemma count_nodes_tree (h : heap) (d : nat) (root : addr) (t : tree)
    (fuel : nat) :
  tree_of h d (Ptr root) = Some t → 2 * d ≤ S fuel →
  Visitor.count_nodes fuel h root
  = Some (foldl Visitor.count_node (∅, Visitor.no_tally) (preorder t)).2.
Proof.
  intros Ht Hfuel. unfold Visitor.count_nodes.
  by rewrite (record_tree _ h d root t fuel _ Ht Hfuel).
Qed.

Lemma count_visits_tree (h : heap) (d : nat) (root : addr) (t : tree)
    (fuel : nat) :
  tree_of h d (Ptr root) = Some t → 2 * d ≤ S fuel →
  Visitor.count_visits fuel h root
  = Some (foldl Visitor.count_visit Visitor.no_tally (preorder t)).
Proof. apply record_tree. Qed.

Lemma sample_store_tree (x : ptr) :
  ∃ (prog : addr) (h : heap),
    build_sample x ∅ = Some (prog, h) ∧
    tree_of h 5 (Ptr prog) = Some sample_tree.
Proof. eexists _, _. split; vm_compute; reflexivity. Qed.

Lemma shared_store_tree (x : ptr) :
  ∃ (prog : addr) (h : heap),
    build_sample_shared x ∅ = Some (prog, h) ∧
    tree_of h 5 (Ptr prog) = Some shared_tree.
Proof. eexists _, _. split; vm_compute; reflexivity. Qed.

Lemma shared_counted (x : ptr) (fuel : nat) :
  9 ≤ fuel →
  count_sample fuel (build_sample_shared x)
  = Some (Visitor.mk_tally 1 0 1 2 1 1).
Proof.
  intros Hfuel. destruct (shared_store_tree x) as (prog & h & Hb & Ht).
  unfold count_sample. rewrite Hb.
  rewrite (count_nodes_tree h 5 prog shared_tree fuel Ht) by lia.
  vm_compute. reflexivity.
Qed.

(** How the tally depends on the reading of the scenario: a visitor that
    counts visits meets a Variable three times on either layout, and
    with a node of its own for every occurrence of [x] the tree holds
    three Variable nodes. *)
Lemma other_readings_of_sample (x : ptr) (fuel : nat) :
  9 ≤ fuel →
  visits_sample fuel (build_sample_shared x)
  = Some (Visitor.mk_tally 1 0 1 3 1 1) ∧
  visits_sample fuel (build_sample x)
  = Some (Visitor.mk_tally 1 0 1 3 1 1) ∧
  count_sample fuel (build_sample x)
  = Some (Visitor.mk_tally 1 0 1 3 1 1).
Proof.
  intros Hfuel.
  destruct (shared_store_tree x) as (p1 & h1 & Hb1 & Ht1).
  destruct (sample_store_tree x) as (p2 & h2 & Hb2 & Ht2).
  unfold visits_sample, count_sample. rewrite Hb1, Hb2.
  rewrite (count_visits_tree h1 5 p1 shared_tree fuel Ht1) by lia.
  rewrite (count_visits_tree h2 5 p2 sample_tree fuel Ht2) by lia.
  rewrite (count_nodes_tree h2 5 p2 sample_tree fuel Ht2) by lia.
  split_and!; vm_compute; reflexivity.
Qed.



(** * Further properties of the header *)

(** ** The hierarchy as an order *)

Lemma derived_from_trans (a b c : Class) :
  derived_from a b = true → derived_from b c = true →
  derived_from a c = true.
Proof.
  rewrite !derived_from_rtc. intros Hab Hbc. by etrans.
Qed.

Lemma derived_from_Node (c : Class) : derived_from c Node_cls = true.
Proof. by destruct c. Qed.

Lemma derived_from_antisym (a b : Class) :
  derived_from a b = true → derived_from b a = true → a = b.
Proof. destruct a, b; vm_compute; congruence. Qed.

(** Single inheritance: the ancestors of a class form a chain. *)
Lemma derived_from_chain (c t u : Class) :
  derived_from c t = true → derived_from c u = true →
  derived_from t u = true ∨ derived_from u t = true.
Proof.
  destruct c; vm_compute; intros Ht Hu;
    destruct t; try discriminate Ht;
    destruct u; try discriminate Hu; auto.
Qed.

Lemma is_live (T : Class) (h : heap) (a : addr) (o : Object) :
  h !! a = Some o → is_ T h (Ptr a) = Some (derived_from (dyn o) T).
Proof.
  intros Ho. unfold is_. rewrite (as_live T h a o Ho); simpl.
  by destruct (derived_from (dyn o) T).
Qed.

Lemma is_true_live (T : Class) (h : heap) (p : ptr) :
  is_ T h p = Some true →
  ∃ a o, p = Ptr a ∧ h !! a = Some o ∧ derived_from (dyn o) T = true.
Proof.
  destruct p as [| a]; [done |].
  destruct (h !! a) as [o |] eqn:Ho.
  - rewrite (is_live T h a o Ho). intros [= Hd]. by exists a, o.
  - unfold is_, as_, dynamic_cast. by rewrite Ho.
Qed.



(** ** Composing casts *)

Lemma points_to_live_Node (h : heap) (a : addr) :
  points_to h Node_cls (Ptr a) = true → ∃ o, h !! a = Some o.
Proof.
  unfold points_to. destruct (h !! a) as [o |]; [| done].
  intros _. by exists o.
Qed.

Lemma as_cases (T : Class) (h : heap) (p q : ptr) :
  as_ T h p = Some q → q = p ∨ q = nullptr.
Proof.
  destruct p as [| a]; simpl.
  - intros [= <-]. by left.
  - unfold as_, dynamic_cast. destruct (h !! a) as [o |]; simpl; [| done].
    destruct (derived_from (dyn o) T); intros [= <-]; auto.
Qed.

(** X2: on a pointer that is null or names a live node, casts compose:
    casting twice to the same class is casting once, two casts commute,
    and casting to a class and then to one of its bases is the first
    cast alone; a cast yields its argument or null, never the address
    of another node. *)
Theorem as_composes :
  ∀ (h : heap) (T U : Class) (p : ptr),
    points_to h Node_cls p = true →
    (∃ q, as_ T h p = Some q ∧ (q = p ∨ q = nullptr)) ∧
    (as_ T h p ≫= as_ T h) = as_ T h p ∧
    (as_ T h p ≫= as_ U h) = (as_ U h p ≫= as_ T h) ∧
    (derived_from T U = true → (as_ T h p ≫= as_ U h) = as_ T h p).
Proof.
  intros h T U p Hp. destruct p as [| a].
  { split_and!; try done. exists nullptr. by split; [| left]. }
  destruct (points_to_live_Node h a Hp) as [o Ho].
  rewrite !(as_live _ h a o Ho); simpl. split_and!.
  - eexists. split; [done |]. destruct (derived_from (dyn o) T); auto.
  - destruct (derived_from (dyn o) T) eqn:Hd; [| done].
    by rewrite (as_live _ h a o Ho), Hd.
  - destruct (derived_from (dyn o) T) eqn:HT,
      (derived_from (dyn o) U) eqn:HU;
      rewrite ?(as_live _ h a o Ho), ?HT, ?HU; done.
  - intros HTU. destruct (derived_from (dyn o) T) eqn:HT; [| done].
    by rewrite (as_live _ h a o Ho), (derived_from_trans _ _ _ HT HTU).
Qed.

Lemma as_composes_witness :
  let h : gmap positive Object :=
    {[ 1%positive := Application_impl_ctor nullptr nullptr ]} in
  (points_to h Node_cls (Ptr 1) = true ∧
   derived_from Application_cls Term_cls = true) ∧
  (as_ Application_cls h (Ptr 1) ≫= as_ Term_cls h)
  = as_ Application_cls h (Ptr 1).
Proof.
  intros h.
  assert (Hp : points_to h Node_cls (Ptr 1) = true) by reflexivity.
  assert (Hd : derived_from Application_cls Term_cls = true) by reflexivity.
  split; [by split |].
  destruct (as_composes h Application_cls Term_cls (Ptr 1) Hp)
    as (_ & _ & _ & Hup).
  exact (Hup Hd).
Defined.

(** ** Kind tags and the type test *)

Lemma run_ops_tagged (ops : list Op) :
  ∀ (h0 h : heap),
    tagged h0 → run_ops ops h0 = Some (tt, h) → tagged h.
Proof.
  induction ops as [| op ops IH]; intros h0 h Ht Hrun.
  - by injection Hrun as <-.
  - apply run_ops_cons in Hrun as (h1 & H1 & Hrest).
    eapply IH; [| done]. by eapply run_op_tagged.
Qed.

Lemma tagged_empty : tagged ∅.
Proof. intros a o. by rewrite lookup_empty. Qed.

Lemma class_kind_interface (c T : Class) (k : Kind) :
  class_kind c = Some k → is_interface T = true →
  derived_from c T = derived_from (interface_of k) T.
Proof.
  destruct c; simpl; intros [= <-]; destruct T; simpl; by intros.
Qed.

(** X3: in a store built by the framework the kind tag decides the type
    test: for every interface class [T], [is<T>(n)] holds exactly when
    the interface named by [n->kind] derives from [T]; so a node is a
    Term exactly when its kind is Variable, Abstraction or Application,
    and a Statement exactly when it is Definition or Evaluation. *)
Theorem kind_decides_is :
  ∀ (ops : list Op) (h : heap) (a : addr) (o : Object),
    run_ops ops ∅ = Some (tt, h) → h !! a = Some o →
    (∀ T, is_interface T = true →
          is_ T h (Ptr a)
          = Some (derived_from (interface_of (kind (node o))) T)) ∧
    is_ Term_cls h (Ptr a)
    = Some (bool_decide (kind (node o) ∈ [Variable_node; Abstraction_node;
                                          Application_node])) ∧
    is_ Statement_cls h (Ptr a)
    = Some (bool_decide (kind (node o) ∈ [Definition_node;
                                          Evaluation_node])) ∧
    is_ Program_cls h (Ptr a)
    = Some (bool_decide (kind (node o) = Program_node)).
Proof.
  intros ops h a o Hrun Ho.
  pose proof (run_ops_tagged ops ∅ h tagged_empty Hrun a o Ho) as Hk.
  assert (Hall : ∀ T, is_interface T = true →
            is_ T h (Ptr a)
            = Some (derived_from (interface_of (kind (node o))) T)).
  { intros T HT. rewrite (is_live T h a o Ho).
    by rewrite (class_kind_interface _ T _ Hk HT). }
  split_and!; [exact Hall | | |]; rewrite Hall by done;
    by destruct (kind (node o)).
Qed.

Lemma kind_decides_is_witness :
  let ops := [op_Variable_impl nullptr; op_Evaluation_impl (Ptr 1)] in
  ∃ h o, (run_ops ops ∅ = Some (tt, h) ∧ h !! 2%positive = Some o) ∧
         kind (node o) = Evaluation_node ∧
         is_ Statement_cls h (Ptr 2) = Some true ∧
         is_ Term_cls h (Ptr 2) = Some false.
Proof.
  intros ops.
  assert (Hrun : ∃ h o, run_ops ops ∅ = Some (tt, h) ∧
                        h !! 2%positive = Some o ∧
                        kind (node o) = Evaluation_node).
  { eexists _, _. split_and!; vm_compute; reflexivity. }
  destruct Hrun as (h & o & Hrun & Ho & Hk).
  exists h, o. split; [by split |]. split; [exact Hk |].
  destruct (kind_decides_is ops h 2%positive o Hrun Ho)
    as (_ & HT & HS & _).
  rewrite HT, HS, Hk. by split.
Defined.

(** ** Pointer arithmetic on the child range *)

Lemma deref_slot (h : heap) (a : addr) (o : Object) (i : nat) :
  h !! a = Some o → deref h (Slot a i) = nodes_of (storage o) !! i.
Proof. intros Ho. unfold deref; simpl. by rewrite Ho. Qed.

Lemma range_elements_slots (h : heap) (a : addr) (o : Object) (i j : nat) :
  h !! a = Some o → i ≤ j → j ≤ length (nodes_of (storage o)) →
  range_elements h (Slot a i) (Slot a j)
  = Some (take (j - i) (drop i (nodes_of (storage o)))).
Proof.
  intros Ho Hij Hj. unfold range_elements; simpl.
  rewrite decide_True by done.
  apply (read_slots_nodes h a o); [done | lia].
Qed.

(** X4: for a live node with children [cs], [end()] is [begin()] moved
    forward by the number of children; reading [begin() + i] for a
    position [i] inside the range gives the [i]-th child; the two ends
    coincide exactly when there is no child; and cutting the range at
    any position inside it gives the children before and the children
    from that position. *)
Theorem child_range_arithmetic :
  ∀ (h : heap) (a : addr) (o : Object),
    h !! a = Some o →
    ∃ b e,
      Node_begin h a = Some b ∧ Node_end h a = Some e ∧
      e = slot_add b (length (nodes_of (storage o))) ∧
      (∀ i x, nodes_of (storage o) !! i = Some x →
              deref h (slot_add b i) = Some x) ∧
      (b = e ↔ nodes_of (storage o) = []) ∧
      (∀ i, i ≤ length (nodes_of (storage o)) →
            range_elements h b (slot_add b i)
            = Some (take i (nodes_of (storage o))) ∧
            range_elements h (slot_add b i) e
            = Some (drop i (nodes_of (storage o)))).
Proof.
  intros h a o Ho.
  exists (Slot a 0), (Slot a (length (nodes_of (storage o)))).
  split_and!.
  - by apply (Node_begin_slot h a o).
  - by apply (Node_end_slot h a o).
  - done.
  - intros i x Hx. unfold slot_add; simpl.
    by rewrite (deref_slot h a o _ Ho).
  - split.
    + intros [= Hlen]. symmetry in Hlen. by apply length_zero_iff_nil in Hlen.
    + by intros ->.
  - intros i Hi. unfold slot_add; simpl. split.
    + rewrite (range_elements_slots h a o 0 i Ho) by lia.
      by rewrite Nat.sub_0_r, drop_0.
    + rewrite (range_elements_slots h a o i _ Ho) by lia.
      by rewrite take_ge by (rewrite length_drop; lia).
Qed.

Lemma child_range_arithmetic_witness :
  let o := Application_impl_ctor (Ptr 5) (Ptr 6) in
  let h : gmap positive Object := {[ 7%positive := o ]} in
  h !! 7%positive = Some o ∧
  ∃ b e, Node_begin h 7 = Some b ∧ Node_end h 7 = Some e ∧
         deref h (slot_add b 1) = Some (Ptr 6) ∧
         range_elements h (slot_add b 1) e = Some [Ptr 6].
Proof.
  intros o h.
  assert (Hl : h !! 7%positive = Some o) by reflexivity.
  split; [exact Hl |].
  destruct (child_range_arithmetic h 7%positive o Hl)
    as (b & e & Hb & He & _ & Hd & _ & Hcut).
  exists b, e. split_and!; [exact Hb | exact He | |].
  - apply (Hd 1). reflexivity.
  - apply (Hcut 1). simpl. lia.
Defined.

(** ** Constructing a multi node from a sequence *)

(** X5: the iterator-range constructor of [Multi_node] (to which the
    range and initialiser-list constructors delegate) gives the same
    node, at the same address and in the same store, as constructing the
    node empty and calling [add_node] on each element in order; its
    children are the given elements. *)
Theorem range_constructor_is_repeated_add :
  ∀ (h : heap) (c : Class) (Base : Node) (m : Members) (elems : list ptr),
    new_ (complete c (Multi_node_ctor_range Base elems) m) h
    = (a ← new_ (complete c (Multi_node_ctor Base) m);
       _ ← add_nodes a elems; mret a) h ∧
    builds (new_ (complete c (Multi_node_ctor_range Base elems) m)) h elems.
Proof.
  intros h c Base m elems. split; [| apply new_builds].
  set (o := complete c (Multi_node_ctor Base) m).
  destruct (new_fresh o h) as (a & Hnew & Hfresh).
  rewrite (bind_Some _ _ _ _ _ Hnew).
  erewrite bind_Some;
    [| by apply (add_nodes_grown elems _ a o []); [apply lookup_insert_eq |]].
  rewrite insert_insert_eq.
  destruct (new_fresh (complete c (Multi_node_ctor_range Base elems) m) h)
    as (a' & Hnew' & _).
  rewrite Hnew'. unfold new_ in Hnew, Hnew'.
  injection Hnew as Ha _. injection Hnew' as Ha' _.
  rewrite <- Ha, <- Ha'. reflexivity.
Qed.

(** ** Appending to different nodes *)

Lemma add_node_unfold (this : addr) (n : ptr) (h : heap) :
  Multi_node_add_node this n h
  = match h !! this with
    | Some o => match storage o with
                | Multi_node _ => Some (tt, <[this := grown o [n]]> h)
                | _ => None
                end
    | None => None
    end.
Proof.
  unfold Multi_node_add_node, grown.
  destruct (h !! this) as [o |]; simpl; [| done].
  by destruct (storage o).
Qed.

(** X6: appends to two different multi nodes commute: whichever call
    runs first, the resulting store is the same (and the pair faults in
    one order exactly when it faults in the other). *)
Theorem add_node_commutes :
  ∀ (h : heap) (a b : addr) (n m : ptr),
    a ≠ b →
    (_ ← Multi_node_add_node a n; Multi_node_add_node b m) h
    = (_ ← Multi_node_add_node b m; Multi_node_add_node a n) h.
Proof.
  intros h a b n m Hab.
  unfold mbind, M_bind, bind. rewrite !add_node_unfold.
  destruct (h !! a) as [oa |] eqn:Ha; destruct (h !! b) as [ob |] eqn:Hb.
  - destruct (storage oa) eqn:Hsa; destruct (storage ob) eqn:Hsb;
      rewrite ?add_node_unfold, ?lookup_insert_ne, ?Ha, ?Hb, ?Hsa, ?Hsb
        by done; try done.
    by rewrite insert_insert_ne.
  - destruct (storage oa) eqn:Hsa;
      rewrite ?add_node_unfold, ?lookup_insert_ne, ?Ha, ?Hb by done; done.
  - destruct (storage ob) eqn:Hsb;
      rewrite ?add_node_unfold, ?lookup_insert_ne, ?Ha, ?Hb by done; done.
  - done.
Qed.

Lemma add_node_commutes_witness :
  let h : gmap positive Object :=
    {[ 1%positive := Program_impl_ctor; 2%positive := Program_impl_ctor ]} in
  (1 ≠ 2)%positive ∧
  (_ ← Multi_node_add_node 1 (Ptr 3); Multi_node_add_node 2 (Ptr 4)) h
  = (_ ← Multi_node_add_node 2 (Ptr 4); Multi_node_add_node 1 (Ptr 3)) h.
Proof.
  intros h.
  assert (Hne : (1 ≠ 2)%positive) by discriminate.
  split; [exact Hne |].
  exact (add_node_commutes h 1%positive 2%positive (Ptr 3) (Ptr 4) Hne).
Defined.

(** ** Children depend on their node alone *)

Lemma read_slots_ext (h h' : heap) (n : nat) :
  ∀ it, h' !! base it = h !! base it →
        read_slots h' n it = read_slots h n it.
Proof.
  induction n as [| n IH]; intros it Hit; simpl; [done |].
  unfold deref. rewrite Hit. by rewrite (IH (slot_add it 1)).
Qed.

Lemma children_ext (h h' : heap) (p : addr) :
  h' !! p = h !! p → children h' p = children h p.
Proof.
  intros Hp. destruct (h !! p) as [o |] eqn:Ho.
  - rewrite (children_nodes h p o Ho). by apply children_nodes.
  - unfold children, Node_begin. by rewrite Hp, Ho.
Qed.

(** ** Destroying a node *)

(** ** Accessors on arbitrary children *)

Lemma as_self_iff (T : Class) (h : heap) (p : ptr) :
  as_ T h p = Some p ↔ points_to h T p = true.
Proof.
  split; [| apply as_points_to].
  destruct p as [| a]; [done |]. unfold as_, dynamic_cast, points_to.
  destruct (h !! a) as [o |]; simpl; [| done].
  by destruct (derived_from (dyn o) T).
Qed.



(** X9: [Variable_impl] accepts any symbol pointer: [symbol()] returns
    it as it is, while [name()] dereferences it, so it returns the
    spelling when the pointer names a live symbol and faults when the
    pointer is null or dangling. *)
Theorem name_dereferences_symbol :
  ∀ (st : symtab) (h : heap) (sym : ptr),
    ∃ a h', new_Variable_impl sym h = Some (a, h') ∧
            Variable_symbol h' a = Some sym ∧
            Variable_name st h' a
            = match sym with
              | Ptr s => spelling <$> st !! s
              | nullptr => None
              end ∧
            (is_Some (Variable_name st h' a) ↔
             ∃ s, sym = Ptr s ∧ is_Some (st !! s)).
Proof.
  intros st h sym.
  destruct (new_fresh (Variable_impl_ctor sym) h) as (a & Hnew & _).
  exists a, (<[a := Variable_impl_ctor sym]> h).
  assert (Hname : Variable_name st (<[a := Variable_impl_ctor sym]> h) a
                  = match sym with
                    | Ptr s => spelling <$> st !! s
                    | nullptr => None
                    end).
  { unfold Variable_name, virtual_call, Variable_impl_name,
      Variable_impl_symbol.
    by rewrite lookup_insert_eq. }
  split_and!; [done | | done |].
  - unfold Variable_symbol, virtual_call, Variable_impl_symbol.
    by rewrite lookup_insert_eq.
  - rewrite Hname. destruct sym as [| s]; split.
    + by intros [x Hx].
    + by intros (s & Hs & _).
    + intros Hsome. exists s. split; [done |].
      by apply fmap_is_Some in Hsome.
    + intros (s' & [= <-] & Hs). by apply fmap_is_Some.
Qed.

(** ** What the operations leave alone *)

Lemma run_op_storage (op : Op) (h h1 : heap) (a : addr) (o : Object) :
  run_op op h = Some (tt, h1) → h !! a = Some o →
  ∃ o1, h1 !! a = Some o1 ∧ dyn o1 = dyn o ∧ node o1 = node o ∧
        members o1 = members o ∧
        storage o1 = match storage o with
                     | Multi_node v => Multi_node (v ++ added a op)
                     | s => s
                     end ∧
        ((∀ v, storage o ≠ Multi_node v) → added a op = []).
Proof.
  intros Hrun Ho.
  destruct (run_op_inv op h h1 Hrun)
    as [(b & ob & Hb & -> & _ & _ & Hadd)
       | (b & ob & n & vb & Hb & -> & Hsb & Hadd)].
  - exists o. rewrite lookup_insert_ne by congruence.
    rewrite Hadd. split_and!; try done.
    destruct (storage o); by rewrite ?app_nil_r.
  - rewrite Hadd. destruct (decide (b = a)) as [-> | Hne].
    + rewrite Hb in Ho. injection Ho as ->.
      exists (grown o [n]). rewrite lookup_insert_eq.
      split_and!; try done.
      * simpl. by rewrite Hsb.
      * intros Hno. by destruct (Hno vb).
    + exists o. rewrite lookup_insert_ne by done.
      split_and!; try done.
      destruct (storage o); by rewrite ?app_nil_r.
Qed.

Lemma run_ops_storage (ops : list Op) :
  ∀ (h h' : heap) (a : addr) (o : Object),
    run_ops ops h = Some (tt, h') → h !! a = Some o →
    ∃ o', h' !! a = Some o' ∧ dyn o' = dyn o ∧ node o' = node o ∧
          members o' = members o ∧
          storage o' = match storage o with
                       | Multi_node v => Multi_node (v ++ appended a ops)
                       | s => s
                       end ∧
          ((∀ v, storage o ≠ Multi_node v) → appended a ops = []).
Proof.
  induction ops as [| op ops IH]; intros h h' a o Hrun Ho.
  - injection Hrun as <-. exists o. split_and!; try done.
    destruct (storage o); by rewrite ?app_nil_r.
  - apply run_ops_cons in Hrun as (h1 & H1 & Hrest).
    destruct (run_op_storage op h h1 a o H1 Ho)
      as (o1 & Ho1 & Hd1 & Hn1 & Hm1 & Hs1 & Hf1).
    destruct (IH h1 h' a o1 Hrest Ho1)
      as (o' & Ho' & Hd' & Hn' & Hm' & Hs' & Hf').
    exists o'. unfold appended in *. rewrite bind_cons.
    split_and!; [done | congruence | congruence | congruence | |].
    + rewrite Hs', Hs1. destruct (storage o); try done.
      by rewrite app_assoc.
    + intros Hno. rewrite (Hf1 Hno), Hf'; [done |].
      intros v. rewrite Hs1. destruct (storage o); try done.
      by destruct (Hno nodes).
Qed.

(** X10: whatever sequence of operations runs, a node that exists stays
    where it is with its class, kind, location and symbol; its children
    are the children it had followed by the pointers appended to it
    since, in call order; a nullary, unary or binary node keeps exactly
    the children it was constructed with; and every type test on the
    node gives the answer it gave before. *)
Theorem operations_only_append :
  ∀ (ops : list Op) (h h' : heap) (a : addr) (o : Object),
    run_ops ops h = Some (tt, h') → h !! a = Some o →
    ∃ o', h' !! a = Some o' ∧
          dyn o' = dyn o ∧ node o' = node o ∧ members o' = members o ∧
          children h' a = Some (nodes_of (storage o) ++ appended a ops) ∧
          ((∀ v, storage o ≠ Multi_node v) →
             storage o' = storage o ∧ children h' a = children h a) ∧
          (∀ T, as_ T h' (Ptr a) = as_ T h (Ptr a)) ∧
          (∀ T, is_ T h' (Ptr a) = is_ T h (Ptr a)).
Proof.
  intros ops h h' a o Hrun Ho.
  destruct (run_ops_storage ops h h' a o Hrun Ho)
    as (o' & Ho' & Hd & Hn & Hm & Hs & Hf).
  assert (Hkids : nodes_of (storage o')
                  = nodes_of (storage o) ++ appended a ops).
  { rewrite Hs. destruct (storage o) eqn:Hso; try done;
      rewrite Hf; try done; by rewrite ?app_nil_r. }
  exists o'. split_and!; try done.
  - by rewrite (children_nodes h' a o' Ho'), Hkids.
  - intros Hno. split.
    + rewrite Hs. destruct (storage o) eqn:Hso; try done.
      by destruct (Hno nodes).
    + rewrite (children_nodes h' a o' Ho'), (children_nodes h a o Ho).
      by rewrite Hkids, (Hf Hno), app_nil_r.
  - intros T. by rewrite (as_live T h' a o' Ho'), (as_live T h a o Ho), Hd.
  - intros T. by rewrite (is_live T h' a o' Ho'), (is_live T h a o Ho), Hd.
Qed.

Lemma operations_only_append_witness :
  let o := Abstraction_impl_ctor (Ptr 5) nullptr in
  let h : gmap positive Object :=
    {[ 1%positive := o; 2%positive := Program_impl_ctor ]} in
  let ops := [op_add_statement 2 (Ptr 1); op_Variable_impl nullptr;
              op_add_node 2 nullptr] in
  ∃ h', (run_ops ops h = Some (tt, h') ∧ h !! 1%positive = Some o) ∧
        children h' 1 = Some [Ptr 5; nullptr] ∧
        children h' 2 = Some [Ptr 1; nullptr].
Proof.
  intros o h ops.
  assert (Hrun : ∃ h', run_ops ops h = Some (tt, h')).
  { eexists. vm_compute. reflexivity. }
  destruct Hrun as [h' Hrun].
  assert (H1 : h !! 1%positive = Some o) by reflexivity.
  assert (H2 : h !! 2%positive = Some Program_impl_ctor) by reflexivity.
  exists h'. split; [by split |].
  destruct (operations_only_append ops h h' 1%positive o Hrun H1)
    as (o1 & _ & _ & _ & _ & Hc1 & _).
  destruct (operations_only_append ops h h' 2%positive _ Hrun H2)
    as (o2 & _ & _ & _ & _ & Hc2 & _).
  split; [exact Hc1 | exact Hc2].
Defined.

(** ** Locations *)

Lemma run_op_new_object (op : Op) (h h' : heap) (a : addr) (o : Object) :
  run_op op h = Some (tt, h') → h !! a = None → h' !! a = Some o →
  loc (node o) = Location_default ∧
  (op_typed h op = true → object_typed h o = true).
Proof.
  intros Hrun Hfresh Ho.
  destruct op; simpl in Hrun;
    try (unfold mbind, M_bind, bind in Hrun;
         match type of Hrun with
         | context [?c h] =>
             destruct (c h) as [[b h1] |] eqn:Hn; [| done];
             apply new_inv in Hn as [Hf ->]
         end;
         injection Hrun as <-;
         destruct (decide (b = a)) as [-> | Hne];
         [ rewrite lookup_insert_eq in Ho; injection Ho as <-;
           split; [reflexivity | by intros Hop]
         | rewrite lookup_insert_ne in Ho by done; congruence ]).
  - destruct (add_node_inv _ _ _ _ Hrun) as (ob & v & Hb & _ & ->).
    destruct (decide (this = a)) as [-> | Hne]; [congruence |].
    rewrite lookup_insert_ne in Ho by done. congruence.
  - destruct (add_statement_inv _ _ _ _ Hrun) as (ob & v & Hb & _ & ->).
    destruct (decide (this = a)) as [-> | Hne]; [congruence |].
    rewrite lookup_insert_ne in Ho by done. congruence.
Qed.

(** X11: the framework never records a source position: every
    constructor value-initialises [loc] and no operation assigns it, so
    every node of a store built by the framework has the default
    location. *)
Theorem location_stays_default :
  ∀ (ops : list Op) (h : heap) (a : addr) (o : Object),
    run_ops ops ∅ = Some (tt, h) → h !! a = Some o →
    loc (node o) = Location_default.
Proof.
  intros ops. induction ops as [| op ops IH] using rev_ind;
    intros h a o Hrun Ho.
  - injection Hrun as <-. by rewrite lookup_empty in Ho.
  - apply run_ops_snoc in Hrun as (h1 & Hrun & Hop).
    destruct (h1 !! a) as [o1 |] eqn:Ho1.
    + destruct (run_op_storage op h1 h a o1 Hop Ho1)
        as (o' & Ho' & _ & Hn & _).
      rewrite Ho' in Ho. injection Ho as <-. rewrite Hn.
      by apply (IH h1 a).
    + by destruct (run_op_new_object op h1 h a o Hop Ho1 Ho).
Qed.

Lemma location_stays_default_witness :
  let ops := [op_Program_impl; op_Variable_impl (Ptr 3);
              op_add_statement 1 nullptr] in
  ∃ h o, (run_ops ops ∅ = Some (tt, h) ∧ h !! 1%positive = Some o) ∧
         loc (node o) = Location_default.
Proof.
  intros ops.
  assert (Hrun : ∃ h o, run_ops ops ∅ = Some (tt, h) ∧
                        h !! 1%positive = Some o).
  { eexists _, _. split; vm_compute; reflexivity. }
  destruct Hrun as (h & o & Hrun & Ho).
  exists h, o. split; [by split |].
  exact (location_stays_default ops h 1%positive o Hrun Ho).
Defined.

(** ** Stores built at the declared types *)

Lemma run_op_extends (op : Op) (h h' : heap) :
  run_op op h = Some (tt, h') → extends h h'.
Proof.
  intros Hrun a o Ho.
  destruct (run_op_storage op h h' a o Hrun Ho) as (o' & Ho' & Hd & _).
  by exists o'.
Qed.

Lemma points_to_extends (h h' : heap) (T : Class) (p : ptr) :
  extends h h' → points_to h T p = true → points_to h' T p = true.
Proof.
  intros Hext. destruct p as [| a]; [done |]. unfold points_to.
  destruct (h !! a) as [o |] eqn:Ho; [| done].
  destruct (Hext a o Ho) as (o' & -> & ->). done.
Qed.

Lemma forallb_points_to_extends (h h' : heap) (T : Class) (v : list ptr) :
  extends h h' →
  forallb (points_to h T) v = true → forallb (points_to h' T) v = true.
Proof.
  intros Hext. induction v as [| p v IH]; simpl; [done |].
  rewrite !andb_true_iff. intros [Hp Hv].
  split; [by eapply points_to_extends | by apply IH].
Qed.

Lemma object_typed_extends (h h' : heap) (o : Object) :
  extends h h' → object_typed h o = true → object_typed h' o = true.
Proof.
  intros Hext. unfold object_typed.
  destruct (dyn o), (storage o); try done;
    rewrite ?andb_true_iff;
    try (intros [H1 H2]; split; by eapply points_to_extends);
    try (by apply points_to_extends).
  by apply forallb_points_to_extends.
Qed.

Lemma added_typed (h : heap) (op : Op) (b : addr) (n : ptr) :
  added b op = [n] → op_typed h op = true →
  points_to h Statement_cls n = true.
Proof.
  destruct op; simpl; try done;
    (case_decide; [| done]); intros [= <-];
    rewrite andb_true_iff; by intros [_ Hn].
Qed.

Lemma typed_multi (h : heap) (o : Object) (v : list ptr) :
  object_typed h o = true → storage o = Multi_node v →
  dyn o = Program_impl ∧ forallb (points_to h Statement_cls) v = true.
Proof.
  unfold object_typed. intros Ht Hs. rewrite Hs in Ht.
  by destruct (dyn o).
Qed.

Lemma run_op_store_typed (op : Op) (h h' : heap) :
  store_typed h → op_typed h op = true → run_op op h = Some (tt, h') →
  store_typed h'.
Proof.
  intros Hst Hop Hrun a o Ho.
  pose proof (run_op_extends op h h' Hrun) as Hext.
  destruct (h !! a) as [o0 |] eqn:Ho0.
  - destruct (run_op_inv op h h' Hrun)
      as [(b & ob & Hb & -> & _) | (b & ob & n & vb & Hb & -> & Hsb & Hadd)].
    + rewrite lookup_insert_ne in Ho by congruence.
      apply (object_typed_extends h); [done |]. by apply (Hst a).
    + destruct (decide (b = a)) as [-> | Hne].
      * rewrite lookup_insert_eq in Ho. injection Ho as <-.
        destruct (typed_multi h ob vb (Hst a ob Hb) Hsb) as [Hd Hv].
        unfold object_typed; simpl. rewrite Hd, Hsb.
        rewrite forallb_app, andb_true_iff. split.
        -- by apply (forallb_points_to_extends h).
        -- simpl. rewrite andb_true_r.
           apply (points_to_extends h); [done |].
           apply (added_typed h op a); [| done].
           rewrite Hadd. by rewrite decide_True.
      * rewrite lookup_insert_ne in Ho by done.
        apply (object_typed_extends h); [done |]. by apply (Hst a).
  - apply (object_typed_extends h); [done |].
    by apply (run_op_new_object op h h' a o Hrun Ho0 Ho).
Qed.

Lemma typed_run_store_typed (h : heap) (ops : list Op) (h' : heap) :
  typed_run h ops h' → store_typed h → store_typed h'.
Proof.
  induction 1 as [h | h h1 h' op ops Hop Hrun _ IH]; [done |].
  intros Hst. apply IH. by eapply run_op_store_typed.
Qed.

Lemma store_typed_empty : store_typed ∅.
Proof. intros a o. by rewrite lookup_empty. Qed.

Lemma not_Program (c T : Class) :
  derived_from c T = true →
  T = Variable_cls ∨ T = Term_cls ∨ T = Statement_cls →
  derived_from c Program_cls = false.
Proof.
  intros Hd [-> | [-> | ->]]; destruct c; vm_compute in Hd |- *; congruence.
Qed.

Lemma points_to_live (h : heap) (T : Class) (b : addr) :
  points_to h T (Ptr b) = true →
  ∃ ob, h !! b = Some ob ∧ derived_from (dyn ob) T = true.
Proof.
  unfold points_to. destruct (h !! b) as [ob |]; [| done].
  intros Hd. by exists ob.
Qed.

(** A child held by a typed object is live and is not a Program. *)
Lemma typed_child_live (h : heap) (o : Object) (c : addr) :
  object_typed h o = true → Ptr c ∈ nodes_of (storage o) →
  ∃ oc, h !! c = Some oc ∧ derived_from (dyn oc) Program_cls = false.
Proof.
  unfold object_typed. intros Ht Hc.
  assert (Hany : ∃ T, points_to h T (Ptr c) = true ∧
                      (T = Variable_cls ∨ T = Term_cls ∨ T = Statement_cls)).
  { destruct (dyn o), (storage o) as [| n0 | n0 n1 | v]; try done;
      simpl in Hc; rewrite ?andb_true_iff in Ht;
      try (by set_unfold in Hc);
      try (set_unfold in Hc; destruct Hc as [<- | [<- | []]];
           destruct Ht; eexists; (split; [eassumption | auto]));
      try (set_unfold in Hc; destruct Hc as [<- | []];
           eexists; (split; [eassumption | auto])).
    exists Statement_cls. split; [| auto].
    rewrite forallb_forall in Ht. apply Ht.
    by apply list_elem_of_In. }
  destruct Hany as (T & Hp & HT).
  destruct (points_to_live h T c Hp) as (oc & Hoc & Hd).
  exists oc. split; [done |]. by eapply not_Program.
Qed.

Lemma Abstraction_read (h : heap) (a : addr) (o : Object) (n0 n1 : ptr) :
  h !! a = Some o → dyn o = Abstraction_impl →
  storage o = Binary_node n0 n1 →
  Abstraction_var h a = Some n0 ∧ Abstraction_term h a = Some n1.
Proof.
  intros Ho Hd Hs.
  unfold Abstraction_var, Abstraction_term, virtual_call,
    Abstraction_impl_var, Abstraction_impl_term, Binary_node_nodes.
  rewrite Ho; simpl. rewrite Hs, !decide_True by done. done.
Qed.

Lemma Application_read (h : heap) (a : addr) (o : Object) (n0 n1 : ptr) :
  h !! a = Some o → dyn o = Application_impl →
  storage o = Binary_node n0 n1 →
  Application_func h a = Some n0 ∧ Application_arg h a = Some n1.
Proof.
  intros Ho Hd Hs.
  unfold Application_func, Application_arg, virtual_call,
    Application_impl_func, Application_impl_arg, Binary_node_nodes.
  rewrite Ho; simpl. rewrite Hs, !decide_True by done. done.
Qed.

Lemma Definition_read (h : heap) (a : addr) (o : Object) (n0 n1 : ptr) :
  h !! a = Some o → dyn o = Definition_impl →
  storage o = Binary_node n0 n1 →
  Definition_var h a = as_ Variable_cls h n0 ∧
  Definition_def h a = as_ Term_cls h n1.
Proof.
  intros Ho Hd Hs.
  unfold Definition_var, Definition_def, virtual_call,
    Definition_impl_var, Definition_impl_def, Binary_node_first,
    Binary_node_second, Binary_node_nodes.
  rewrite Ho; simpl. rewrite Hs, !decide_True by done. done.
Qed.

Lemma Evaluation_read (h : heap) (a : addr) (o : Object) (n0 : ptr) :
  h !! a = Some o → dyn o = Evaluation_impl →
  storage o = Unary_node n0 →
  Evaluation_term h a = as_ Term_cls h n0.
Proof.
  intros Ho Hd Hs.
  unfold Evaluation_term, virtual_call, Evaluation_impl_term,
    Unary_node_first, Unary_node_nodes.
  rewrite Ho; simpl. rewrite Hs, !decide_True by done. done.
Qed.

(** X12: in a store built by operations applied at their declared
    types, every object has the storage of its class and holds children
    of the declared types, none of them dangling; every accessor then
    returns, without faulting, the stored pointer itself, which is null
    or points to a live object of the accessor's return type: the casts
    inside [Definition_impl::var], [Definition_impl::def] and
    [Evaluation_impl::term] never turn a child into null, and
    [statements()] ranges over [Statement] pointers. *)
Theorem typed_store_accessors :
  ∀ (ops : list Op) (h : heap),
    typed_run ∅ ops h →
    ∀ (a : addr) (o : Object),
      h !! a = Some o →
      (∀ c, Ptr c ∈ nodes_of (storage o) → is_Some (h !! c)) ∧
      match dyn o with
      | Variable_impl => storage o = Nullary_node
      | Abstraction_impl =>
          ∃ v t, storage o = Binary_node v t ∧
                 Abstraction_var h a = Some v ∧
                 Abstraction_term h a = Some t ∧
                 points_to h Variable_cls v = true ∧
                 points_to h Term_cls t = true
      | Application_impl =>
          ∃ f x, storage o = Binary_node f x ∧
                 Application_func h a = Some f ∧
                 Application_arg h a = Some x ∧
                 points_to h Term_cls f = true ∧
                 points_to h Term_cls x = true
      | Definition_impl =>
          ∃ v t, storage o = Binary_node v t ∧
                 Definition_var h a = Some v ∧
                 Definition_def h a = Some t ∧
                 points_to h Variable_cls v = true ∧
                 points_to h Term_cls t = true
      | Evaluation_impl =>
          ∃ t, storage o = Unary_node t ∧
               Evaluation_term h a = Some t ∧
               points_to h Term_cls t = true
      | Program_impl =>
          ∃ v r, storage o = Multi_node v ∧
                 Program_statements h a = Some r ∧
                 Node_range.elements h r = Some v ∧
                 Forall (λ p, points_to h Statement_cls p = true) v
      | _ => False
      end.
Proof.
  intros ops h Hrun a o Ho.
  pose proof (typed_run_store_typed ∅ ops h Hrun store_typed_empty a o Ho)
    as Ht.
  split.
  { intros c Hc. destruct (typed_child_live h o c Ht Hc) as (oc & -> & _).
    by eexists. }
  unfold object_typed in Ht.
  destruct (dyn o) eqn:Hd; try done;
    destruct (storage o) as [| n0 | n0 n1 | v] eqn:Hs; try done;
    rewrite ?andb_true_iff in Ht.
  - destruct Ht as [H0 H1].
    destruct (Abstraction_read h a o n0 n1 Ho Hd Hs) as [Hv Hb].
    by exists n0, n1.
  - destruct Ht as [H0 H1].
    destruct (Application_read h a o n0 n1 Ho Hd Hs) as [Hf Hx].
    by exists n0, n1.
  - destruct Ht as [H0 H1].
    destruct (Definition_read h a o n0 n1 Ho Hd Hs) as [Hv Hb].
    exists n0, n1. rewrite Hv, Hb.
    split_and!; try done; by apply as_points_to.
  - pose proof (Evaluation_read h a o n0 Ho Hd Hs) as Hv.
    exists n0. rewrite Hv. split_and!; try done. by apply as_points_to.
  - destruct (Program_statements_range h a o Ho Hd)
      as (r & Hr & _ & _ & He & Hc).
    exists v, r. split_and!; try done.
    + rewrite He, Hc. by rewrite Hs.
    + apply Forall_forall. intros p Hp.
      rewrite forallb_forall in Ht. apply Ht. by apply list_elem_of_In.
Qed.

Lemma typed_store_accessors_witness :
  let ops := [op_Variable_impl nullptr; op_Variable_impl nullptr;
              op_Definition_impl (Ptr 1) (Ptr 2)] in
  ∃ h o, (typed_run ∅ ops h ∧ h !! 3%positive = Some o ∧
          dyn o = Definition_impl) ∧
         Definition_var h 3 = Some (Ptr 1) ∧
         Definition_def h 3 = Some (Ptr 2).
Proof.
  intros ops.
  assert (Hrun : ∃ h o, typed_run ∅ ops h ∧ h !! 3%positive = Some o ∧
                        dyn o = Definition_impl ∧
                        storage o = Binary_node (Ptr 1) (Ptr 2)).
  { eexists _, _. split_and!.
    - eapply typed_run_cons; [reflexivity | vm_compute; reflexivity |].
      eapply typed_run_cons; [reflexivity | vm_compute; reflexivity |].
      eapply typed_run_cons; [reflexivity | vm_compute; reflexivity |].
      apply typed_run_nil.
    - reflexivity.
    - reflexivity.
    - reflexivity. }
  destruct Hrun as (h & o & Hrun & Ho & Hd & Hs).
  exists h, o. split; [by split_and! |].
  destruct (typed_store_accessors ops h Hrun 3%positive o Ho) as [_ Hacc].
  rewrite Hd in Hacc. destruct Hacc as (v & t & Hs' & Hv & Ht & _).
  rewrite Hs in Hs'. injection Hs' as <- <-. by split.
Defined.

(** ** Acyclicity *)

Lemma top_above (ht : addr → nat) (ps : list ptr) (c : addr) :
  Ptr c ∈ ps → ht c < top ht ps.
Proof.
  induction ps as [| p ps IH]; intros Hc; [by apply elem_of_nil in Hc |].
  apply elem_of_cons in Hc as [<- | Hc]; simpl.
  - lia.
  - specialize (IH Hc). destruct p; lia.
Qed.

(** Replacing or adding the object at [b], when no child pointer of the
    new store names [b], keeps the store ranked. *)
Lemma ranked_insert (h : heap) (ht : addr → nat) (b : addr) (o' : Object) :
  ranked h ht →
  (∀ x c, child_of (<[b := o']> h) x c → c ≠ b) →
  ranked (<[b := o']> h)
         (λ x, if decide (x = b) then top ht (nodes_of (storage o'))
               else ht x).
Proof.
  intros Hr Hno x c Hxc. pose proof (Hno x c Hxc) as Hcb.
  destruct Hxc as (o & Ho & Hc).
  rewrite (decide_False (P := c = b)) by done.
  destruct (decide (x = b)) as [-> | Hxb].
  - rewrite lookup_insert_eq in Ho. injection Ho as <-.
    by apply top_above.
  - rewrite lookup_insert_ne in Ho by done.
    apply Hr. by exists o.
Qed.

Lemma run_op_ranked (op : Op) (h h' : heap) (ht : addr → nat) :
  store_typed h → op_typed h op = true → run_op op h = Some (tt, h') →
  ranked h ht → ∃ ht', ranked h' ht'.
Proof.
  intros Hst Hop Hrun Hr.
  pose proof (run_op_store_typed op h h' Hst Hop Hrun) as Hst'.
  destruct (run_op_inv op h h' Hrun)
    as [(b & ob & Hb & Heq & _) | (b & ob & n & vb & Hb & Heq & Hsb & _)];
    subst h'; eexists; apply ranked_insert; try done;
    intros x c (o & Ho & Hc) ->.
  - (* a new object: every child was live before, the new address was not *)
    assert (Hlive : ∃ oc, h !! b = Some oc); [| destruct Hlive; congruence].
    destruct (decide (x = b)) as [-> | Hxb].
    + rewrite lookup_insert_eq in Ho. injection Ho as <-.
      assert (Hto : object_typed h ob = true).
      { apply (run_op_new_object op h (<[b := ob]> h) b ob Hrun Hb);
          [apply lookup_insert_eq | done]. }
      destruct (typed_child_live h ob b Hto Hc) as (oc & Hoc & _). eauto.
    + rewrite lookup_insert_ne in Ho by done.
      destruct (typed_child_live h o b (Hst x o Ho) Hc) as (oc & Hoc & _).
      eauto.
  - (* an append: the node appended to is a Program, no child is one *)
    destruct (typed_child_live _ o b (Hst' x o Ho) Hc) as (oc & Hoc & Hnp).
    rewrite lookup_insert_eq in Hoc. injection Hoc as <-.
    destruct (typed_multi h ob vb (Hst b ob Hb) Hsb) as [Hd _].
    simpl in Hnp. by rewrite Hd in Hnp.
Qed.

Lemma typed_run_ranked (h : heap) (ops : list Op) (h' : heap) :
  typed_run h ops h' → store_typed h → (∃ ht, ranked h ht) →
  ∃ ht', ranked h' ht'.
Proof.
  induction 1 as [h | h h1 h' op ops Hop Hrun _ IH]; [done |].
  intros Hst [ht Hr]. apply IH.
  - by eapply run_op_store_typed.
  - by eapply run_op_ranked.
Qed.

Lemma ranked_tc (h : heap) (ht : addr → nat) (a b : addr) :
  ranked h ht → tc (child_of h) a b → ht b < ht a.
Proof.
  intros Hr. induction 1 as [x y Hxy | x y z Hxy _ IH].
  - by apply Hr.
  - specialize (Hr x y Hxy). lia.
Qed.

(** X13: a store built by operations applied at their declared types
    holds no cycle: the nodes can be given heights that strictly
    decrease from every parent to each of its children, so no node is
    its own descendant. *)
Theorem typed_store_acyclic :
  ∀ (ops : list Op) (h : heap),
    typed_run ∅ ops h →
    (∃ ht : addr → nat, ranked h ht) ∧
    ∀ a, ¬ tc (child_of h) a a.
Proof.
  intros ops h Hrun.
  assert (Hr : ∃ ht : addr → nat, ranked h ht).
  { apply (typed_run_ranked ∅ ops h Hrun store_typed_empty).
    exists (λ _, 0). intros a b (o & Ho & _). by rewrite lookup_empty in Ho. }
  split; [exact Hr |].
  destruct Hr as [ht Hr]. intros a Hcycle.
  pose proof (ranked_tc h ht a a Hr Hcycle). lia.
Qed.

Lemma typed_store_acyclic_witness :
  let ops := [op_Program_impl; op_Variable_impl nullptr;
              op_Evaluation_impl (Ptr 2); op_add_statement 1 (Ptr 3)] in
  ∃ h, typed_run ∅ ops h ∧ child_of h 1%positive 3%positive ∧
       ¬ tc (child_of h) 1%positive 1%positive.
Proof.
  intros ops.
  assert (Hrun : ∃ h, typed_run ∅ ops h ∧
                      ∃ o, h !! 1%positive = Some o ∧
                           nodes_of (storage o) = [Ptr 3]).
  { eexists. split.
    - eapply typed_run_cons; [reflexivity | vm_compute; reflexivity |].
      eapply typed_run_cons; [reflexivity | vm_compute; reflexivity |].
      eapply typed_run_cons; [reflexivity | vm_compute; reflexivity |].
      eapply typed_run_cons; [reflexivity | vm_compute; reflexivity |].
      apply typed_run_nil.
    - eexists. split; reflexivity. }
  destruct Hrun as (h & Hrun & o & Ho & Hkids).
  exists h. split_and!; [exact Hrun | |].
  - exists o. split; [exact Ho |]. rewrite Hkids. apply list_elem_of_here.
  - exact (proj2 (typed_store_acyclic ops h Hrun) 1%positive).
Defined.

(** ** Parity by the lowest bit *)

(** X14: [odd] of the copy test tells parity for every integer, negative
    ones included: it is true exactly when the remainder of [n] by 2 is
    1, i.e. when [n] is not a multiple of 2. *)
Theorem odd_is_parity :
  ∀ n : Z, Copy_test.odd n = Z.odd n ∧
           (Copy_test.odd n = true ↔ (n `mod` 2 = 1)%Z) ∧
           (Copy_test.odd n = false ↔ (2 | n)%Z).
Proof.
  intros n.
  assert (Hland : Z.land n 1 = (n `mod` 2)%Z).
  { change 1%Z with (Z.ones 1). by rewrite Z.land_ones by lia. }
  assert (Hodd : Copy_test.odd n = Z.odd n).
  { unfold Copy_test.odd. rewrite Hland, Zmod_odd.
    by destruct (Z.odd n). }
  pose proof (Zmod_odd n) as Hmod.
  split_and!; [done | |]; rewrite Hodd.
  - rewrite Hmod. by destruct (Z.odd n).
  - rewrite <- Z.mod_divide by lia. rewrite Hmod. by destruct (Z.odd n).
Qed.

(** ** A parent after its child is destroyed *)


